(** * React component development: DataTable and InputField

    A shallow embedding of the two presentational components of the
    repository and of the part of the JavaScript host they rely on:

    - [JS]: primitive values, numbers, [String(v)], string helpers,
      [Array.prototype.sort] as an interface with its laws, and a store of
      objects and arrays for code that copies and sorts arrays in place;
    - [DataTable]: [src/components/datatable.tsx];
    - [InputField]: the field component with the [isPassword] and
      [isClearable] props (the stories file);
    - [InputFieldLabel]: the field component without those props, whose
      visibility toggle is driven by the label text.

    Styling (Tailwind class strings merged by [twMerge]) has no influence on
    behaviour and is left out. *)

From Stdlib Require Import Ascii.
From stdpp Require Import gmap strings list sorting pretty.

(* ===================================================================== *)
(** * The JavaScript host *)
(* ===================================================================== *)

Module JS.

(** ** Numbers

    A JavaScript number is NaN, an infinity or a finite value. Finite values
    are modelled by integers: the subtraction of the table's comparator is
    exact on them, and so is it on doubles as far as its sign goes. *)
Inductive number : Type :=
  | NaN
  | NegInfinity
  | Finite (z : Z)
  | PosInfinity.

Global Instance number_eq_dec : EqDecision number.
Proof. solve_decision. Defined.

(** [a - b] *)
Definition number_sub (a b : number) : number :=
  match a, b with
  | NaN, _ | _, NaN => NaN
  | Finite x, Finite y => Finite (x - y)
  | PosInfinity, PosInfinity | NegInfinity, NegInfinity => NaN
  | PosInfinity, _ | _, NegInfinity => PosInfinity
  | NegInfinity, _ | _, PosInfinity => NegInfinity
  end.

(** The three-way order of numbers, NaN being unordered. *)
Definition number_compare (a b : number) : option comparison :=
  match a, b with
  | NaN, _ | _, NaN => None
  | Finite x, Finite y => Some (x ?= y)%Z
  | NegInfinity, NegInfinity | PosInfinity, PosInfinity => Some Eq
  | NegInfinity, _ | _, PosInfinity => Some Lt
  | PosInfinity, _ | _, NegInfinity => Some Gt
  end.

(** How [Array.prototype.sort] reads the number a comparator returned:
    negative, positive, or zero; NaN counts as zero. *)
Definition sign (v : number) : comparison :=
  match v with
  | NaN => Eq
  | NegInfinity => Lt
  | PosInfinity => Gt
  | Finite z => (z ?= 0)%Z
  end.

(** [Number::toString] in radix 10, on the integers of the model: all the
    digits below 10^21, and from there on the digits up to the last one
    that is not zero, a point after the first, and the exponent. *)
Fixpoint drop_zeros (s : string) : string :=
  match s with
  | String "0" s' => drop_zeros s'
  | _ => s
  end.

Definition exponent_form (digits : string) : string :=
  match String.rev (drop_zeros (String.rev digits)) with
  | String d rest =>
      String d (match rest with
                | EmptyString => EmptyString
                | _ => "." +:+ rest
                end)
      +:+ "e+" +:+ pretty (String.length digits - 1)
  | EmptyString => "0"
  end.

Definition Number_toString (n : number) : string :=
  match n with
  | NaN => "NaN"
  | PosInfinity => "Infinity"
  | NegInfinity => "-Infinity"
  | Finite z =>
      if (Z.abs z <? 10 ^ 21)%Z then pretty z
      else (if (z <? 0)%Z then "-" else "")
           +:+ exponent_form (pretty (Z.abs_N z))
  end.

Example Number_toString_examples :
  Number_toString (Finite 42) = "42"
  ∧ Number_toString (Finite (-7)) = "-7"
  ∧ Number_toString (Finite (10 ^ 21 - 1000000)) = "999999999999999000000"
  ∧ Number_toString (Finite (10 ^ 21)) = "1e+21"
  ∧ Number_toString (Finite (-15 * 10 ^ 20)) = "-1.5e+21".
Proof. by vm_compute. Qed.

(** ** Values

    The field values of a record are undefined, null, booleans, numbers
    and strings. [VBuiltin k] is the member [k] that a plain object
    inherits from [Object.prototype]: a built-in function, or for
    [__proto__] the prototype itself. *)
Inductive value : Type :=
  | VUndefined
  | VNull
  | VBoolean (b : bool)
  | VNumber (n : number)
  | VString (s : string)
  | VBuiltin (k : string).

Global Instance value_eq_dec : EqDecision value.
Proof. solve_decision. Defined.

(** [String(v)] *)
Definition String_ (v : value) : string :=
  match v with
  | VUndefined => "undefined"
  | VNull => "null"
  | VBoolean true => "true"
  | VBoolean false => "false"
  | VNumber n => Number_toString n
  | VString s => s
  | VBuiltin k =>
      if String.eqb k "__proto__" then "[object Object]"
      else "function "
           +:+ (if String.eqb k "constructor" then "Object" else k)
           +:+ "() { [native code] }"
  end.

(** ** Objects and references

    A record is a reference to a plain object; an object is the finite
    map of its own data properties, and its prototype is
    [Object.prototype]. Reading a property looks at the own properties
    first and then at the prototype; a property found in neither reads as
    [undefined]. Two references are the same record exactly when they are
    equal, whatever the objects hold. *)
Definition loc : Type := nat.

Abbreviation object := (gmap string value).

(** The property names of [Object.prototype]. *)
Definition Object_prototype_keys : list string :=
  [ "constructor"; "hasOwnProperty"; "isPrototypeOf";
    "propertyIsEnumerable"; "toLocaleString"; "toString"; "valueOf";
    "__proto__"; "__defineGetter__"; "__defineSetter__";
    "__lookupGetter__"; "__lookupSetter__" ].

(** [o[k]] *)
Definition Get (o : object) (k : string) : value :=
  match o !! k with
  | Some v => v
  | None =>
      if bool_decide (k ∈ Object_prototype_keys) then VBuiltin k
      else VUndefined
  end.

(** [r[k]] for a reference [r] into the object heap [objs] *)
Definition GetV (objs : gmap loc object) (r : loc) (k : string) : value :=
  Get (default ∅ (objs !! r)) k.

(** ** Arrays of references

    [xs.includes(x)], [xs.filter(r => r !== x)] and [[...xs, x]] on arrays
    of references: references compare by identity. *)
Definition Array_includes (xs : list loc) (x : loc) : bool :=
  bool_decide (x ∈ xs).

Definition Array_filter_ne (xs : list loc) (x : loc) : list loc :=
  filter (λ r, r ≠ x) xs.

(** ** Array.prototype.sort

    The host sorts with a comparator that returns a number. Whatever the
    comparator, the engine only moves the elements around; with a
    consistent comparator (one that behaves as a total preorder on the
    elements at hand) the result is in order. *)
Section comparator.
Context {A : Type} (comparefn : A → A → number).

(** [x] may stay before [y]: the comparator does not ask to swap. *)
Definition precedes (x y : A) : Prop := sign (comparefn x y) ≠ Gt.

Global Instance precedes_dec x y : Decision (precedes x y).
Proof. unfold precedes. apply _. Defined.

Record consistent_comparator (l : list A) : Prop := {
  consistent_refl : ∀ x, x ∈ l → sign (comparefn x x) = Eq;
  consistent_antisym : ∀ x y, x ∈ l → y ∈ l →
    sign (comparefn y x) = CompOpp (sign (comparefn x y));
  consistent_trans : ∀ x y z, x ∈ l → y ∈ l → z ∈ l →
    precedes x y → precedes y z → precedes x z
}.
End comparator.

Class ArraySort : Type := {
  sort_by : ∀ {A : Type}, (A → A → number) → list A → list A;
  sort_by_perm : ∀ {A} (comparefn : A → A → number) (l : list A),
    sort_by comparefn l ≡ₚ l;
  sort_by_sorted : ∀ {A} (comparefn : A → A → number) (l : list A),
    consistent_comparator comparefn l →
    StronglySorted (precedes comparefn) (sort_by comparefn l)
}.

(** A stable insertion sort, as engines use on short arrays. *)
Section insertion_sort.
Context {A : Type} (comparefn : A → A → number).

Fixpoint insert_before (x : A) (l : list A) : list A :=
  match l with
  | [] => [x]
  | y :: l' =>
      if decide (precedes comparefn x y) then x :: l
      else y :: insert_before x l'
  end.

Fixpoint insertion_sort (l : list A) : list A :=
  match l with
  | [] => []
  | x :: l' => insert_before x (insertion_sort l')
  end.
End insertion_sort.

(** ** A store of objects and arrays

    Code that copies an array and sorts the copy in place runs in a state
    monad over the store: arrays are references too, and [sort] overwrites
    the array it is called on. *)
Record store : Type := {
  objects : gmap loc object;
  arrays : gmap loc (list loc)
}.

Definition M (A : Type) : Type := store → A * store.

Definition ret {A} (a : A) : M A := λ σ, (a, σ).

Definition bind {A B} (m : M A) (k : A → M B) : M B :=
  λ σ, let '(a, σ') := m σ in k a σ'.

Notation "'let*' x ':=' m 'in' k" := (bind m (λ x, k))
  (at level 10, x name, m at level 100, k at level 200).

(** The elements of the array at [a]. *)
Definition elements_of (σ : store) (a : loc) : list loc :=
  default [] (arrays σ !! a).

(** [[...a]]: a new array holding the elements of [a]. *)
Definition Array_spread (a : loc) : M loc := λ σ,
  let r := fresh (dom (arrays σ)) in
  (r, {| objects := objects σ;
         arrays := <[r := elements_of σ a]> (arrays σ) |}).

(** [a.sort(comparefn)]: sorts [a] in place and returns [a]. The comparator
    is a closure that reads the objects of the store. *)
Definition Array_sort `{ArraySort} (a : loc)
    (comparefn : gmap loc object → loc → loc → number) : M loc := λ σ,
  (a, {| objects := objects σ;
         arrays := alter (sort_by (comparefn (objects σ))) a (arrays σ) |}).

(** ** Strings

    Strings are sequences of code units below 256. [toLowerCase] maps the
    upper-case letters of that range, and only them, 32 places up. *)
Definition toLowerCase_unit (c : ascii) : ascii :=
  let n := N_of_ascii c in
  if ((65 <=? n) && (n <=? 90)
      || (192 <=? n) && (n <=? 222) && negb (n =? 215))%N
  then ascii_of_N (n + 32) else c.

Fixpoint String_toLowerCase (s : string) : string :=
  match s with
  | EmptyString => EmptyString
  | String c s' => String (toLowerCase_unit c) (String_toLowerCase s')
  end.

(** [s.includes(search)] *)
Fixpoint String_includes (s search : string) : bool :=
  String.prefix search s ||
  match s with
  | EmptyString => false
  | String _ s' => String_includes s' search
  end.

End JS.

(* ===================================================================== *)
(** * The data table: src/components/datatable.tsx *)
(* ===================================================================== *)

Module DataTable.
Import JS.

(** ** Props and state *)

Record Column : Type := {
  col_key : string;      (* key: keyof T *)
  col_header : string    (* header *)
}.

(** [onRowSelect] is a callback of the caller: the props say whether one
    was passed, and each call is recorded with its argument. *)
Record DataTableProps : Type := {
  data : list loc;
  columns : list Column;
  loading_prop : option bool;       (* loading?: boolean *)
  selectable_prop : option bool;    (* selectable?: boolean *)
  onRowSelect : bool
}.

(** [loading = false], [selectable = false] *)
Definition loading (p : DataTableProps) : bool :=
  default false (loading_prop p).

Definition selectable (p : DataTableProps) : bool :=
  default false (selectable_prop p).

Inductive direction : Type := asc | desc.

Global Instance direction_eq_dec : EqDecision direction.
Proof. solve_decision. Defined.

Record SortConfig : Type := {
  key : string;
  dir : direction   (* direction *)
}.

(** [useState<T[]>([])] and [useState<...|null>(null)] *)
Record State : Type := {
  selectedRows : list loc;
  sortConfig : option SortConfig
}.

Definition initial_state : State :=
  {| selectedRows := []; sortConfig := None |}.

(** A call of the [onRowSelect] callback, with the array it received. *)
Inductive call : Type := OnRowSelect (selected : list loc).

(** ** handleRowClick *)

Definition newSelectedRows (selectedRows : list loc) (row : loc) : list loc :=
  let isSelected := Array_includes selectedRows row in
  if isSelected then Array_filter_ne selectedRows row
  else selectedRows ++ [row].

Definition handleRowClick (p : DataTableProps) (st : State) (row : loc)
    : State * list call :=
  let new := newSelectedRows (selectedRows st) row in
  ({| selectedRows := new; sortConfig := sortConfig st |},
   if onRowSelect p then [OnRowSelect new] else []).

(** ** handleSort *)

Definition handleSort (st : State) (k : string) : State :=
  let direction :=
    match sortConfig st with
    | Some sc =>
        if bool_decide (key sc = k) && bool_decide (dir sc = asc)
        then desc else asc
    | None => asc
    end in
  {| selectedRows := selectedRows st;
     sortConfig := Some {| key := k; dir := direction |} |}.

(** ** sortedData *)

(** The comparator passed to [sort]: strings by [<] and [>], numbers by
    difference, anything else equal. *)
Definition compareRows (sc : SortConfig) (objs : gmap loc object)
    (a b : loc) : number :=
  let aValue := GetV objs a (key sc) in
  let bValue := GetV objs b (key sc) in
  match aValue, bValue with
  | VString x, VString y =>
      if String.ltb x y then
        match dir sc with asc => Finite (-1) | desc => Finite 1 end
      else if String.ltb y x then
        match dir sc with asc => Finite 1 | desc => Finite (-1) end
      else Finite 0
  | VNumber x, VNumber y =>
      match dir sc with
      | asc => number_sub x y
      | desc => number_sub y x
      end
  | _, _ => Finite 0
  end.

(** The body of the [useMemo] callback, on the store: copy, sort the copy
    in place when a sort is configured, return the copy. *)
Definition sortedData_run `{ArraySort} (data : loc)
    (sortConfig : option SortConfig) : M loc :=
  let* sortableItems := Array_spread data in
  match sortConfig with
  | Some sc =>
      let* _ := Array_sort sortableItems (compareRows sc) in
      ret sortableItems
  | None => ret sortableItems
  end.

(** The elements of the array [sortedData_run] returns, as a function of
    the elements of [data]. [useMemo] caches it per [data] and
    [sortConfig]; rendering recomputes it, which gives the same rows. *)
Definition sortedData `{ArraySort} (objs : gmap loc object)
    (data : list loc) (sortConfig : option SortConfig) : list loc :=
  match sortConfig with
  | Some sc => sort_by (compareRows sc objs) data
  | None => data
  end.

(** ** Rendering *)

Record HeaderCell : Type := {
  th_key : string;
  th_header : string;
  th_indicator : option direction   (* the arrow of the active sort *)
}.

Record TableRow : Type := {
  tr_row : loc;
  tr_highlighted : bool;            (* selectedRows.includes(row) *)
  tr_checkbox : option bool;        (* its checked state, when selectable *)
  tr_cells : list string
}.

(** A placeholder with its text, or the table: whether the header starts
    with the empty cell of the checkbox column, the header cells of the
    columns, and the rows. *)
Inductive Rendered : Type :=
  | Placeholder (text : string)
  | Table (checkbox_column : bool) (head : list HeaderCell)
      (body : list TableRow).

Definition loading_text : string := "Loading data...".
Definition empty_text : string := "No data to display.".

(** [String(row[column.key])] *)
Definition render_cell (objs : gmap loc object) (row : loc)
    (column : Column) : string :=
  String_ (GetV objs row (col_key column)).

Definition render_header (st : State) (column : Column) : HeaderCell :=
  {| th_key := col_key column;
     th_header := col_header column;
     th_indicator :=
       match sortConfig st with
       | Some sc =>
           if bool_decide (key sc = col_key column) then Some (dir sc)
           else None
       | None => None
       end |}.

(** One row of the body. The row also gets [JSON.stringify(row)] as its
    React key; that text needs the order in which the properties were
    written, which the objects here do not keep, so the key is not part of
    the row: what is said below about rows is about the elements the
    render produces, not about how React matches them with the rows of the
    render before. *)
Definition render_row (p : DataTableProps) (objs : gmap loc object)
    (st : State) (row : loc) : TableRow :=
  {| tr_row := row;
     tr_highlighted := Array_includes (selectedRows st) row;
     tr_checkbox :=
       if selectable p then Some (Array_includes (selectedRows st) row)
       else None;
     tr_cells := render_cell objs row <$> columns p |}.

Definition render `{ArraySort} (p : DataTableProps)
    (objs : gmap loc object) (st : State) : Rendered :=
  if loading p then Placeholder loading_text
  else if bool_decide (length (data p) = 0) then Placeholder empty_text
  else Table (selectable p)
             (render_header st <$> columns p)
             (render_row p objs st <$> sortedData objs (data p) (sortConfig st)).

(** ** The mounted component

    A mounted table is its current props, the objects its records refer
    to, and its state. It is driven by clicks on what is on screen and by
    the parent rendering it again with new props; state survives a new
    render. *)
Record Config : Type := {
  props : DataTableProps;
  heap : gmap loc object;
  state : State
}.

Definition mount (p : DataTableProps) (objs : gmap loc object) : Config :=
  {| props := p; heap := objs; state := initial_state |}.

Inductive event : Type :=
  | RowClick (row : loc)
  | HeaderClick (k : string)
  | Rerender (p : DataTableProps) (objs : gmap loc object).

Definition view `{ArraySort} (c : Config) : Rendered :=
  render (props c) (heap c) (state c).

(** [None] when the event cannot happen: a click needs its row or header
    on screen. A row click runs [selectable && handleRowClick(row)]. *)
Definition dispatch `{ArraySort} (c : Config) (e : event)
    : option (Config * list call) :=
  match e with
  | RowClick row =>
      match view c with
      | Table _ _ body =>
          if bool_decide (row ∈ tr_row <$> body) then
            if selectable (props c) then
              let '(st, calls) := handleRowClick (props c) (state c) row in
              Some ({| props := props c; heap := heap c; state := st |}, calls)
            else Some (c, [])
          else None
      | Placeholder _ => None
      end
  | HeaderClick k =>
      match view c with
      | Table _ head _ =>
          if bool_decide (k ∈ th_key <$> head) then
            Some ({| props := props c; heap := heap c;
                     state := handleSort (state c) k |}, [])
          else None
      | Placeholder _ => None
      end
  | Rerender p objs =>
      Some ({| props := p; heap := objs; state := state c |}, [])
  end.

(** The configurations reached from a mount by events that [allowed]
    admits. *)
Inductive reachable_by `{ArraySort} (allowed : Config → event → Prop)
    : Config → Prop :=
  | reachable_mount p objs : reachable_by allowed (mount p objs)
  | reachable_step c e c' calls :
      reachable_by allowed c →
      allowed c e →
      dispatch c e = Some (c', calls) →
      reachable_by allowed c'.

Definition reachable `{ArraySort} : Config → Prop :=
  reachable_by (λ _ _, True).

(** A new render keeps the selection inside the data when every selected
    record is still among the new [data]. *)
Definition keeps_selected (c : Config) (e : event) : Prop :=
  match e with
  | Rerender p _ => ∀ r, r ∈ selectedRows (state c) → r ∈ data p
  | _ => True
  end.

End DataTable.

(* ===================================================================== *)
(** * The input field with isPassword and isClearable *)
(* ===================================================================== *)

Module InputField.
Import JS.

Inductive Variant : Type := filled | outlined | ghost.
Inductive Size : Type := sm | md | lg.

(** Optional props are options; [onChange] says whether a callback was
    passed, and each call is recorded with [e.target.value]. *)
Record InputFieldProps : Type := {
  value_prop : option string;       (* value, bound as controlledValue *)
  onChange : bool;
  label : option string;
  placeholder : option string;
  helperText : option string;
  errorMessage : option string;
  disabled : option bool;
  invalid : option bool;
  variant_prop : option Variant;
  size_prop : option Size;
  isPassword_prop : option bool;
  isClearable_prop : option bool
}.

Definition variant (p : InputFieldProps) : Variant :=
  default outlined (variant_prop p).
Definition size (p : InputFieldProps) : Size := default md (size_prop p).
Definition isPassword (p : InputFieldProps) : bool :=
  default false (isPassword_prop p).
Definition isClearable (p : InputFieldProps) : bool :=
  default false (isClearable_prop p).

(** Truthiness of an optional boolean and of an optional string. *)
Definition truthy (b : option bool) : bool := default false b.
Definition nonempty (s : string) : bool := negb (String.eqb s "").
Definition truthy_string (s : option string) : bool :=
  match s with Some s => nonempty s | None => false end.

Record State : Type := {
  value : string;
  showPassword : bool
}.

(** [useState(controlledValue || '')], [useState(false)] *)
Definition initial_state (p : InputFieldProps) : State :=
  {| value := default "" (value_prop p); showPassword := false |}.

(** A call of [onChange], with the [target.value] of the event passed. *)
Inductive call : Type := OnChange (target_value : string).

Definition handleInputChange (p : InputFieldProps) (st : State)
    (target_value : string) : State * list call :=
  ({| value := target_value; showPassword := showPassword st |},
   if onChange p then [OnChange target_value] else []).

Definition handleClear (p : InputFieldProps) (st : State)
    : State * list call :=
  ({| value := ""; showPassword := showPassword st |},
   if onChange p then [OnChange ""] else []).

(** [() => setShowPassword(!showPassword)] *)
Definition togglePassword (st : State) : State :=
  {| value := value st; showPassword := negb (showPassword st) |}.

Inductive InputType : Type := password | text.

Inductive Message : Type :=
  | ErrorText (s : string)
  | HelperText (s : string).

Record Button : Type := {
  btn_disabled : bool;
  btn_label : string     (* aria-label *)
}.

Record Rendered : Type := {
  r_label : option string;
  r_type : InputType;
  r_value : string;
  r_placeholder : option string;
  r_disabled : bool;
  r_clear : option Button;      (* the clear button, when rendered *)
  r_toggle : option Button;     (* the visibility toggle, when rendered *)
  r_message : option Message
}.

Definition render (p : InputFieldProps) (st : State) : Rendered :=
  {| r_label := if truthy_string (label p) then label p else None;
     r_type :=
       if isPassword p && negb (showPassword st) then password else text;
     r_value := value st;
     r_placeholder := placeholder p;
     r_disabled := truthy (disabled p);
     r_clear :=
       if isClearable p && nonempty (value st)
       then Some {| btn_disabled := truthy (disabled p);
                    btn_label := "Clear input" |}
       else None;
     r_toggle :=
       if isPassword p
       then Some {| btn_disabled := truthy (disabled p);
                    btn_label := if showPassword st then "Hide password"
                                 else "Show password" |}
       else None;
     r_message :=
       if truthy (invalid p) && truthy_string (errorMessage p)
       then ErrorText <$> errorMessage p
       else if truthy_string (helperText p)
       then HelperText <$> helperText p
       else None |}.

(** What the user can do: type into the input, press the clear button,
    press the visibility toggle. A disabled control fires nothing, and a
    button that is not rendered cannot be pressed. *)
Inductive event : Type :=
  | Input (target_value : string)
  | ClickClear
  | ClickToggle.

Definition enabled (b : option Button) : bool :=
  match b with Some b => negb (btn_disabled b) | None => false end.

Definition dispatch (p : InputFieldProps) (st : State) (e : event)
    : option (State * list call) :=
  match e with
  | Input v =>
      if r_disabled (render p st) then None
      else Some (handleInputChange p st v)
  | ClickClear =>
      if enabled (r_clear (render p st)) then Some (handleClear p st)
      else None
  | ClickToggle =>
      if enabled (r_toggle (render p st)) then Some (togglePassword st, [])
      else None
  end.

End InputField.

(* ===================================================================== *)
(** * The input field whose toggle follows the label *)
(* ===================================================================== *)

Module InputFieldLabel.
Import JS.

Record InputFieldProps : Type := {
  value : option string;
  onChange : bool;
  label : option string;
  placeholder : option string;
  helperText : option string;
  errorMessage : option string;
  disabled : option bool;
  invalid : option bool;
  variant_prop : option InputField.Variant;
  size_prop : option InputField.Size
}.

(** [useState(false)] *)
Record State : Type := {
  isPasswordVisible : bool
}.

Definition initial_state : State := {| isPasswordVisible := false |}.

Definition togglePassword (st : State) : State :=
  {| isPasswordVisible := negb (isPasswordVisible st) |}.

Record Rendered : Type := {
  r_label : option string;
  r_type : InputField.InputType;
  r_value : option string;
  r_disabled : bool;
  r_toggle : option bool;    (* the toggle and its disabled flag *)
  r_message : option InputField.Message
}.

(** [label?.toLowerCase().includes('password')], read as a condition *)
Definition label_mentions_password (label : option string) : bool :=
  match label with
  | Some l => String_includes (String_toLowerCase l) "password"
  | None => false
  end.

Definition render (p : InputFieldProps) (st : State) : Rendered :=
  {| r_label := if InputField.truthy_string (label p) then label p else None;
     r_type :=
       if isPasswordVisible st then InputField.text else InputField.password;
     r_value := value p;
     r_disabled := InputField.truthy (disabled p);
     r_toggle :=
       if label_mentions_password (label p)
       then Some (InputField.truthy (disabled p)) else None;
     r_message :=
       if InputField.truthy (invalid p)
          && InputField.truthy_string (errorMessage p)
       then InputField.ErrorText <$> errorMessage p
       else if InputField.truthy_string (helperText p)
       then InputField.HelperText <$> helperText p
       else None |}.

End InputFieldLabel.


(* ===================================================================== *)
(** * Facts about the host *)
(* ===================================================================== *)

Module JSFacts.
Import JS.

(** ** Comparators *)

Lemma consistent_comparator_subseteq {A} (f : A → A → number) (l k : list A) :
  k ⊆ l → consistent_comparator f l → consistent_comparator f k.
Proof.
  intros Hkl [Hr Ha Ht]. split.
  - intros x Hx. apply Hr. by apply Hkl.
  - intros x y Hx Hy. apply Ha; by apply Hkl.
  - intros x y z Hx Hy Hz. apply Ht; by apply Hkl.
Qed.

Lemma not_precedes_flip {A} (f : A → A → number) (l : list A) x y :
  consistent_comparator f l → x ∈ l → y ∈ l →
  ¬ precedes f x y → precedes f y x.
Proof.
  intros Hc Hx Hy Hn. unfold precedes in *.
  rewrite (consistent_antisym f l Hc x y Hx Hy).
  destruct (sign (f x y)); simpl; [exfalso; by apply Hn..|done].
Qed.

(** ** The insertion sort is an [Array.prototype.sort] *)

Section insertion_sort_facts.
Context {A : Type} (f : A → A → number).

Lemma insert_before_perm (x : A) (l : list A) :
  insert_before f x l ≡ₚ x :: l.
Proof.
  induction l as [|y l IH]; simpl; [done|].
  case_decide; [done|]. rewrite IH. apply Permutation_swap.
Qed.

Lemma insertion_sort_perm (l : list A) : insertion_sort f l ≡ₚ l.
Proof.
  induction l as [|x l IH]; simpl; [done|].
  by rewrite insert_before_perm, IH.
Qed.

Lemma insert_before_sorted (x : A) (l : list A) :
  consistent_comparator f (x :: l) →
  StronglySorted (precedes f) l →
  StronglySorted (precedes f) (insert_before f x l).
Proof.
  intros Hc Hl. induction Hl as [|y l Hl IH Hy]; simpl.
  - repeat constructor.
  - case_decide as Hxy.
    + constructor; [by constructor|].
      constructor; [done|].
      rewrite Forall_forall in Hy |- *. intros z Hz.
      apply (consistent_trans f _ Hc x y z);
        [by left|by right; left|by do 2 right|done|by apply Hy].
    + constructor.
      * apply IH. eapply consistent_comparator_subseteq; [|done].
        intros z [->|Hz]%elem_of_cons; [by left|by do 2 right].
      * rewrite Forall_forall in Hy |- *. intros z Hz.
        rewrite insert_before_perm in Hz.
        apply elem_of_cons in Hz as [->|Hz]; [|by apply Hy].
        apply (not_precedes_flip f (x :: y :: l)); [done|set_solver..|done].
Qed.

Lemma insertion_sort_sorted (l : list A) :
  consistent_comparator f l →
  StronglySorted (precedes f) (insertion_sort f l).
Proof.
  induction l as [|x l IH]; intros Hc; simpl; [constructor|].
  apply insert_before_sorted.
  - eapply consistent_comparator_subseteq; [|done].
    intros z. rewrite !elem_of_cons, insertion_sort_perm. tauto.
  - apply IH. eapply consistent_comparator_subseteq; [|done]. set_solver.
Qed.

End insertion_sort_facts.

Global Instance insertion_ArraySort : ArraySort := {|
  sort_by := @insertion_sort;
  sort_by_perm := @insertion_sort_perm;
  sort_by_sorted := @insertion_sort_sorted
|}.

End JSFacts.

(* ===================================================================== *)
(** * The data table: properties *)
(* ===================================================================== *)

Module DataTableFacts.
Import JS JSFacts DataTable.

Global Instance SortConfig_eq_dec : EqDecision SortConfig.
Proof. solve_decision. Defined.

(** ** Sample data: three users and the columns of the stories *)

Definition ann : object :=
  {[ "name" := VString "Ann"; "n" := VNumber (Finite 3) ]}.
Definition bob : object :=
  {[ "name" := VString "Bob"; "n" := VNumber (Finite 1) ]}.
Definition cid : object :=
  {[ "name" := VString "Cid"; "n" := VNumber (Finite 2) ]}.

Definition users : gmap loc object := {[ 0 := ann; 1 := bob; 2 := cid ]}.

Definition sample_props : DataTableProps :=
  {| data := [0; 1; 2];
     columns := [ {| col_key := "name"; col_header := "Name" |};
                  {| col_key := "age"; col_header := "Age" |} ];
     loading_prop := None;
     selectable_prop := Some true;
     onRowSelect := true |}.

(** ** Sorting state *)

(** C6. A click on the header of column [k] makes [k] the sort key; the
    direction is descending exactly when [k] was already the key with
    ascending direction, and ascending in every other case (no sort yet,
    another key, or the same key descending). The selection is untouched. *)
Theorem handleSort_next_state (st : State) (k : string) :
  sortConfig (handleSort st k) =
    Some {| key := k;
            dir := if bool_decide (sortConfig st = Some {| key := k; dir := asc |})
                   then desc else asc |}
  ∧ selectedRows (handleSort st k) = selectedRows st.
Proof.
  split; [|done]. unfold handleSort.
  destruct (sortConfig st) as [[k' d]|] eqn:Hsc; simpl; [|done].
  destruct d; repeat case_bool_decide; simplify_eq/=; try done.
Qed.

(** ** Selection *)

Lemma Array_filter_ne_elem_of (xs : list loc) (x r : loc) :
  r ∈ Array_filter_ne xs x ↔ r ≠ x ∧ r ∈ xs.
Proof.
  unfold Array_filter_ne. apply (list_elem_of_filter (λ y : loc, y ≠ x)).
Qed.

Lemma Array_filter_ne_absent (xs : list loc) (x : loc) :
  x ∉ xs → Array_filter_ne xs x = xs.
Proof.
  unfold Array_filter_ne. induction xs as [|y xs IH]; intros Hx; [done|].
  destruct (decide (y = x)) as [->|Hne]; [exfalso; apply Hx; by left|].
  rewrite filter_cons, decide_True by done.
  f_equal. apply IH. intros Hin. apply Hx. by right.
Qed.

Lemma newSelectedRows_present (xs : list loc) (row : loc) :
  row ∈ xs → newSelectedRows xs row = Array_filter_ne xs row.
Proof.
  intros Hrow. unfold newSelectedRows, Array_includes.
  by rewrite bool_decide_eq_true_2.
Qed.

Lemma newSelectedRows_absent (xs : list loc) (row : loc) :
  row ∉ xs → newSelectedRows xs row = xs ++ [row].
Proof.
  intros Hrow. unfold newSelectedRows, Array_includes.
  by rewrite bool_decide_eq_false_2.
Qed.

Lemma newSelectedRows_elem_of (xs : list loc) (row r : loc) :
  r ∈ newSelectedRows xs row ↔
    if bool_decide (row ∈ xs) then r ≠ row ∧ r ∈ xs else r ∈ xs ∨ r = row.
Proof.
  unfold newSelectedRows, Array_includes. case_bool_decide.
  - apply Array_filter_ne_elem_of.
  - rewrite elem_of_app, list_elem_of_singleton. tauto.
Qed.

Lemma newSelectedRows_NoDup (xs : list loc) (row : loc) :
  NoDup xs → NoDup (newSelectedRows xs row).
Proof.
  intros Hxs. unfold newSelectedRows, Array_includes. case_bool_decide.
  - by apply NoDup_filter.
  - apply NoDup_app. split_and!; [done| |apply NoDup_singleton].
    intros x Hx ->%list_elem_of_singleton. done.
Qed.

(** C7. Clicking the same row twice gives back the selection set: the
    selection holds the same records as before. When the row was not
    selected the array itself is as before; when it was, the row moves to
    the end of the array. *)
Theorem row_click_twice (p : DataTableProps) (st : State) (row : loc) :
  let st1 := (handleRowClick p st row).1 in
  let st2 := (handleRowClick p st1 row).1 in
  list_to_set (selectedRows st2) =@{gset loc} list_to_set (selectedRows st)
  ∧ (row ∉ selectedRows st → selectedRows st2 = selectedRows st)
  ∧ (row ∈ selectedRows st →
       selectedRows st2 = Array_filter_ne (selectedRows st) row ++ [row])
  ∧ sortConfig st2 = sortConfig st.
Proof.
  simpl. destruct st as [xs sc]. simpl.
  assert (row ∉ xs → newSelectedRows (newSelectedRows xs row) row = xs)
    as Habsent.
  { intros Hrow. rewrite (newSelectedRows_absent xs) by done.
    rewrite newSelectedRows_present by (apply elem_of_app; right; by left).
    unfold Array_filter_ne. rewrite filter_app.
    fold (Array_filter_ne xs row). rewrite Array_filter_ne_absent by done.
    rewrite filter_cons, decide_False by (by intros Hne; apply Hne).
    by rewrite filter_nil, app_nil_r. }
  assert (row ∈ xs → newSelectedRows (newSelectedRows xs row) row
                     = Array_filter_ne xs row ++ [row]) as Hpresent.
  { intros Hrow. rewrite (newSelectedRows_present xs) by done.
    apply newSelectedRows_absent.
    rewrite Array_filter_ne_elem_of. by intros [Hne _]. }
  split_and!; [|done..].
  apply set_eq. intros r. rewrite !elem_of_list_to_set.
  destruct (decide (row ∈ xs)) as [Hrow|Hrow].
  - rewrite Hpresent, elem_of_app, Array_filter_ne_elem_of,
      list_elem_of_singleton by done.
    destruct (decide (r = row)) as [->|Hne]; [tauto|]. tauto.
  - by rewrite Habsent.
Qed.

(** ** Rendering *)

Lemma sortedData_perm `{ArraySort} objs (l : list loc) sc :
  sortedData objs l sc ≡ₚ l.
Proof. destruct sc; simpl; [apply sort_by_perm|done]. Qed.


(** ** Cells of a missing field *)

Definition age_column : Column := {| col_key := "age"; col_header := "Age" |}.

(** What the table shows for the sample: no record has an [age]. *)
Example render_sample :
  render sample_props users initial_state =
    Table true
      [ {| th_key := "name"; th_header := "Name"; th_indicator := None |};
        {| th_key := "age"; th_header := "Age"; th_indicator := None |} ]
      [ {| tr_row := 0; tr_highlighted := false; tr_checkbox := Some false;
           tr_cells := ["Ann"; "undefined"] |};
        {| tr_row := 1; tr_highlighted := false; tr_checkbox := Some false;
           tr_cells := ["Bob"; "undefined"] |};
        {| tr_row := 2; tr_highlighted := false; tr_checkbox := Some false;
           tr_cells := ["Cid"; "undefined"] |} ].
Proof. vm_compute. reflexivity. Qed.

(** C1, as stated, fails: the record [ann] has no [age], and its cell in
    the [age] column is the nine letters of [undefined], not a blank. *)
Lemma missing_field_cell_not_blank :
  users !! 0 = Some ann
  ∧ ann !! col_key age_column = None
  ∧ render_cell users 0 age_column = "undefined"
  ∧ render_cell users 0 age_column ≠ "".
Proof. split_and!; [by vm_compute..|]. by vm_compute. Qed.

(** C1, amended. For every record and every column whose key is neither
    a property of that record nor a name it inherits from
    [Object.prototype], the cell holds the text [undefined]; so it does in
    the row of that record whenever the table is rendered. *)
Theorem missing_field_renders_undefined `{ArraySort} (p : DataTableProps)
    (objs : gmap loc object) (st : State) (row : loc) (column : Column)
    (o : object) :
  objs !! row = Some o →
  o !! col_key column = None →
  col_key column ∉ Object_prototype_keys →
  render_cell objs row column = "undefined"
  ∧ ∀ cb head body tr j,
      render p objs st = Table cb head body →
      tr ∈ body → tr_row tr = row →
      columns p !! j = Some column →
      tr_cells tr !! j = Some "undefined".
Proof.
  intros Hobj Hkey Hproto.
  assert (render_cell objs row column = "undefined") as Hcell.
  { unfold render_cell, GetV, Get. rewrite Hobj. simpl. rewrite Hkey.
    by rewrite bool_decide_eq_false_2. }
  split; [done|].
  intros cb head body tr j Hrender Htr Hrow Hj.
  unfold render in Hrender. destruct (loading p); [done|].
  destruct (bool_decide (length (data p) = 0)); [done|].
  injection Hrender as _ _ <-.
  apply list_elem_of_fmap in Htr as (r & -> & _). simpl in Hrow. subst r.
  simpl. by rewrite list_lookup_fmap, Hj; simpl; rewrite Hcell.
Qed.

Lemma missing_field_renders_undefined_witness :
  users !! 0 = Some ann
  ∧ ann !! col_key age_column = None
  ∧ (col_key age_column ∉ Object_prototype_keys)
  ∧ render_cell users 0 age_column = "undefined"
  ∧ ∀ cb head body tr j,
      render sample_props users initial_state = Table cb head body →
      tr ∈ body → tr_row tr = 0 →
      columns sample_props !! j = Some age_column →
      tr_cells tr !! j = Some "undefined".
Proof.
  assert (col_key age_column ∉ Object_prototype_keys) as Hproto.
  { intros Hin. apply (bool_decide_pack _) in Hin. by vm_compute in Hin. }
  split; [by vm_compute|]. split; [by vm_compute|]. split; [exact Hproto|].
  apply (missing_field_renders_undefined sample_props users initial_state
           0 age_column ann).
  - vm_compute. reflexivity.
  - vm_compute. reflexivity.
  - exact Hproto.
Defined.

(** A key that the record lacks but inherits is not a missing field: the
    cell then holds the text of the inherited member. *)
Example inherited_key_cell :
  ann !! "toString" = None
  ∧ render_cell users 0 {| col_key := "toString"; col_header := "T" |}
    = "function toString() { [native code] }".
Proof. split; by vm_compute. Qed.

(** ** The selection and the data *)

Definition after_click : Config :=
  {| props := sample_props; heap := users;
     state := {| selectedRows := [0]; sortConfig := None |} |}.

Definition fewer_props : DataTableProps :=
  {| data := [1; 2];
     columns := columns sample_props;
     loading_prop := None;
     selectable_prop := Some true;
     onRowSelect := true |}.

Definition after_new_data : Config :=
  {| props := fewer_props; heap := users;
     state := {| selectedRows := [0]; sortConfig := None |} |}.

Example click_first_row :
  dispatch (mount sample_props users) (RowClick 0)
  = Some (after_click, [OnRowSelect [0]]).
Proof. vm_compute. reflexivity. Qed.

Example render_fewer :
  dispatch after_click (Rerender fewer_props users) = Some (after_new_data, []).
Proof. reflexivity. Qed.

(** C2, as stated, fails: select the first record, then render the table
    again with data that no longer holds it. The record stays selected. *)
Lemma selection_outlives_data :
  reachable after_new_data
  ∧ 0 ∈ selectedRows (state after_new_data)
  ∧ (0 ∉ data (props after_new_data))
  ∧ ¬ (selectedRows (state after_new_data) ⊆ data (props after_new_data)).
Proof.
  assert (0 ∉ [1; 2]) as Hnot.
  { intros Hin. apply (bool_decide_pack _) in Hin. by vm_compute in Hin. }
  split_and!.
  - eapply reachable_step; [|done|apply render_fewer].
    eapply reachable_step; [|done|apply click_first_row].
    apply reachable_mount.
  - by left.
  - exact Hnot.
  - intros Hsub. apply Hnot, Hsub. by left.
Qed.

Lemma view_rows `{ArraySort} (c : Config) cb head body :
  view c = Table cb head body → tr_row <$> body ≡ₚ data (props c).
Proof.
  unfold view, render. destruct (loading (props c)); [done|].
  case_bool_decide; [done|]. intros [= _ _ <-].
  rewrite <-list_fmap_compose.
  change (tr_row ∘ render_row (props c) (heap c) (state c)) with (@id loc).
  rewrite list_fmap_id. apply sortedData_perm.
Qed.

(** C2, amended. In every state reached from a mount by row clicks,
    header clicks and new renders whose data still hold every selected
    record, each selected record is one of the current data. *)
Theorem selection_within_data `{ArraySort} (c : Config) :
  reachable_by keeps_selected c →
  selectedRows (state c) ⊆ data (props c).
Proof.
  induction 1 as [p objs|c e c' calls Hc IH Hok Hstep].
  { intros r Hr. inv Hr. }
  destruct e as [row|k|p' objs']; simpl in Hstep.
  - destruct (view c) as [|cb head body] eqn:Hview; [done|].
    destruct (bool_decide (row ∈ tr_row <$> body)) eqn:Hrow; [|done].
    apply bool_decide_eq_true_1 in Hrow.
    rewrite (view_rows c cb head body Hview) in Hrow.
    destruct (selectable (props c)); simplify_eq/=; [|done].
    intros r. rewrite newSelectedRows_elem_of.
    destruct (bool_decide (row ∈ selectedRows (state c)));
      [intros [_ Hr]|intros [Hr| ->]]; auto.
  - destruct (view c) as [|cb head body]; [done|].
    destruct (bool_decide (k ∈ th_key <$> head)); simplify_eq/=; done.
  - simplify_eq/=. exact Hok.
Qed.

Lemma selection_within_data_witness :
  reachable_by keeps_selected after_click
  ∧ selectedRows (state after_click) ⊆ data (props after_click).
Proof.
  assert (reachable_by keeps_selected after_click) as Hreach.
  { eapply reachable_step with (c := mount sample_props users)
      (e := RowClick 0); [apply reachable_mount|exact I|].
    apply click_first_row. }
  split; [exact Hreach|].
  exact (selection_within_data after_click Hreach).
Defined.

(** X3. In every state reached from a mount, whatever the events and
    the new renders, no record is in the selection twice. *)
Lemma selection_NoDup `{ArraySort} (c : Config) :
  reachable c → NoDup (selectedRows (state c)).
Proof.
  induction 1 as [p objs|c e c' calls Hc IH _ Hstep]; [constructor|].
  destruct e as [row|k|p' objs']; simpl in Hstep.
  - destruct (view c) as [|cb head body]; [done|].
    destruct (bool_decide (row ∈ tr_row <$> body)); [|done].
    destruct (selectable (props c)); simplify_eq/=; [|done].
    by apply newSelectedRows_NoDup.
  - destruct (view c) as [|cb head body]; [done|].
    destruct (bool_decide (k ∈ th_key <$> head)); simplify_eq/=; done.
  - by simplify_eq/=.
Qed.

(** ** Sorting: what it touches *)

Lemma sortedData_run_eq `{ArraySort} (σ : store) (data : loc)
    (sc : option SortConfig) :
  sortedData_run data sc σ =
    let r := fresh (dom (arrays σ)) in
    (r, {| objects := objects σ;
           arrays := <[r := sortedData (objects σ) (elements_of σ data) sc]>
                       (arrays σ) |}).
Proof.
  unfold sortedData_run, bind, Array_spread, Array_sort, ret.
  destruct sc as [sc|]; simpl; [|done].
  f_equal. f_equal. apply map_eq. intros a.
  destruct (decide (a = fresh (dom (arrays σ)))) as [->|Hne].
  - by rewrite lookup_alter_eq, !lookup_insert_eq.
  - by rewrite lookup_alter_ne, !lookup_insert_ne.
Qed.

(** A store with the sample users and their array at reference 7. *)
Definition sample_store : store :=
  {| objects := users; arrays := {[ 7 := [0; 1; 2] ]} |}.

Example sortedData_run_sample :
  let '(r, σ') := sortedData_run 7 (Some {| key := "n"; dir := asc |})
                    sample_store in
  elements_of σ' r = [1; 2; 0] ∧ elements_of σ' 7 = [0; 1; 2] ∧ r ≠ 7.
Proof. vm_compute. split_and!; [done..|]. by intros [=]. Qed.

(** C5. Whatever the records and the sort state, the array that sorting
    returns is a new array holding a permutation of the elements of the
    input: the same references, each as often as in the input. Every array
    that existed before, the input among them, holds what it held, and no
    object has changed. *)
Theorem sortedData_run_permutes `{ArraySort} (σ : store) (data : loc)
    (sc : option SortConfig) :
  let r := (sortedData_run data sc σ).1 in
  let σ' := (sortedData_run data sc σ).2 in
  elements_of σ' r ≡ₚ elements_of σ data
  ∧ elements_of σ' r = sortedData (objects σ) (elements_of σ data) sc
  ∧ (r ∉ dom (arrays σ))
  ∧ (∀ a, a ∈ dom (arrays σ) → arrays σ' !! a = arrays σ !! a)
  ∧ elements_of σ' data = elements_of σ data
  ∧ objects σ' = objects σ.
Proof.
  rewrite sortedData_run_eq. simpl.
  pose proof (is_fresh (dom (arrays σ))) as Hfresh.
  assert (∀ a, a ∈ dom (arrays σ) →
    <[fresh (dom (arrays σ)) :=
        sortedData (objects σ) (elements_of σ data) sc]> (arrays σ) !! a
    = arrays σ !! a) as Hold.
  { intros a Ha. apply lookup_insert_ne. by intros <-. }
  assert (elements_of
    {| objects := objects σ;
       arrays := <[fresh (dom (arrays σ)) :=
         sortedData (objects σ) (elements_of σ data) sc]> (arrays σ) |}
    (fresh (dom (arrays σ)))
    = sortedData (objects σ) (elements_of σ data) sc) as Hnew.
  { unfold elements_of at 1. simpl. by rewrite lookup_insert_eq. }
  split_and!; [|done|done|done| |done].
  - rewrite Hnew. apply sortedData_perm.
  - unfold elements_of at 1. simpl. rewrite lookup_insert. case_decide as Heq.
    + assert (elements_of σ data = []) as Hnil.
      { unfold elements_of. rewrite Heq in Hfresh.
        apply not_elem_of_dom in Hfresh. by rewrite Hfresh. }
      rewrite Hnil. simpl. apply Permutation_nil_r, sortedData_perm.
    + done.
Qed.

(** ** Sorting: ascending against descending *)

(** The order the comparator puts on two field values: strings by code
    units, numbers by magnitude, anything else (and NaN) as equal. *)
Definition column_compare (a b : value) : comparison :=
  match a, b with
  | VString x, VString y => String.compare x y
  | VNumber x, VNumber y => default Eq (number_compare x y)
  | _, _ => Eq
  end.

Definition is_string (v : value) : bool :=
  match v with VString _ => true | _ => false end.

Definition is_ordered_number (v : value) : bool :=
  match v with
  | VNumber NaN => false
  | VNumber _ => true
  | _ => false
  end.

(** The values of a column are totally ordered when they are all strings
    or all numbers other than NaN. *)
Definition totally_ordered (vs : list value) : Prop :=
  Forall (λ v, is_string v = true) vs
  ∨ Forall (λ v, is_ordered_number v = true) vs.

Definition column_values (objs : gmap loc object) (data : list loc)
    (k : string) : list value :=
  (λ r, GetV objs r k) <$> data.

Lemma sign_compareRows_asc (objs : gmap loc object) (k : string) (a b : loc) :
  sign (compareRows {| key := k; dir := asc |} objs a b)
  = column_compare (GetV objs a k) (GetV objs b k).
Proof.
  unfold compareRows. simpl.
  destruct (GetV objs a k) as [| | |x|x|x], (GetV objs b k) as [| | |y|y|y];
    try reflexivity.
  - destruct x, y; simpl; try reflexivity. symmetry. apply Z.compare_sub.
  - simpl. unfold String.ltb. rewrite (String.compare_antisym y x).
    by destruct (String.compare x y).
Qed.

Lemma sign_compareRows_desc (objs : gmap loc object) (k : string) (a b : loc) :
  sign (compareRows {| key := k; dir := desc |} objs a b)
  = CompOpp (column_compare (GetV objs a k) (GetV objs b k)).
Proof.
  unfold compareRows. simpl.
  destruct (GetV objs a k) as [| | |x|x|x], (GetV objs b k) as [| | |y|y|y];
    try reflexivity.
  - destruct x, y; simpl; try reflexivity.
    rewrite <-Z.compare_sub. apply Z.compare_antisym.
  - simpl. unfold String.ltb. rewrite (String.compare_antisym y x).
    by destruct (String.compare x y).
Qed.

Lemma column_compare_refl (a : value) : column_compare a a = Eq.
Proof.
  destruct a as [| | |x|x|x]; simpl; try reflexivity.
  - destruct x; simpl; try reflexivity. apply Z.compare_refl.
  - pose proof (String.compare_antisym x x) as Hx.
    destruct (String.compare x x); simpl in Hx; congruence.
Qed.

Lemma column_compare_antisym (a b : value) :
  column_compare b a = CompOpp (column_compare a b).
Proof.
  destruct a as [| | |x|x|x], b as [| | |y|y|y]; simpl; try reflexivity.
  - destruct x, y; simpl; try reflexivity. apply Z.compare_antisym.
  - apply String.compare_antisym.
Qed.

Lemma string_compare_le (x y : string) :
  String.compare x y ≠ Gt ↔ String.le x y.
Proof.
  unfold String.le, String.leb. destruct (String.compare x y); naive_solver.
Qed.

Lemma column_compare_trans (vs : list value) (a b c : value) :
  totally_ordered vs → a ∈ vs → b ∈ vs → c ∈ vs →
  column_compare a b ≠ Gt → column_compare b c ≠ Gt →
  column_compare a c ≠ Gt.
Proof.
  intros [Hvs|Hvs] Ha Hb Hc; rewrite Forall_forall in Hvs;
    apply Hvs in Ha, Hb, Hc;
    destruct a as [| | |x|x|x], b as [| | |y|y|y], c as [| | |z|z|z]; try done.
  - simpl. rewrite !string_compare_le. apply transitivity.
  - destruct x as [| |x|], y as [| |y|], z as [| |z|]; simpl; try done.
    change ((x ≤ y)%Z → (y ≤ z)%Z → (x ≤ z)%Z). lia.
Qed.

Lemma column_compare_eq (vs : list value) (a b : value) :
  totally_ordered vs → a ∈ vs → b ∈ vs →
  column_compare a b = Eq → a = b.
Proof.
  intros [Hvs|Hvs] Ha Hb; rewrite Forall_forall in Hvs;
    apply Hvs in Ha, Hb;
    destruct a as [| | |x|x|x], b as [| | |y|y|y]; try done; simpl.
  - intros Heq. f_equal. by apply String.compare_eq_iff.
  - destruct x as [| |x|], y as [| |y|]; simpl; try done.
    intros Heq%Z.compare_eq. by subst.
Qed.

(** On a totally ordered column the comparator is consistent, in either
    direction. *)
Lemma compareRows_consistent (objs : gmap loc object) (data : list loc)
    (k : string) (d : direction) :
  totally_ordered (column_values objs data k) →
  consistent_comparator (compareRows {| key := k; dir := d |} objs) data.
Proof.
  intros Hord.
  assert (∀ r, r ∈ data → GetV objs r k ∈ column_values objs data k) as Hin.
  { intros r Hr. unfold column_values.
    by apply (list_elem_of_fmap_2 (λ r, GetV objs r k)). }
  split; unfold precedes; destruct d.
  - intros x _. by rewrite sign_compareRows_asc, column_compare_refl.
  - intros x _. by rewrite sign_compareRows_desc, column_compare_refl.
  - intros x y _ _. rewrite !sign_compareRows_asc. apply column_compare_antisym.
  - intros x y _ _. rewrite !sign_compareRows_desc.
    f_equal. apply column_compare_antisym.
  - intros x y z Hx Hy Hz. rewrite !sign_compareRows_asc.
    apply (column_compare_trans _ _ (GetV objs y k) _ Hord); auto.
  - intros x y z Hx Hy Hz. rewrite !sign_compareRows_desc.
    rewrite <-!column_compare_antisym. intros Hxy Hyz.
    apply (column_compare_trans _ _ (GetV objs y k) _ Hord); auto.
Qed.

Lemma precedes_desc_asc (objs : gmap loc object) (k : string) (x y : loc) :
  precedes (compareRows {| key := k; dir := desc |} objs) x y
  ↔ precedes (compareRows {| key := k; dir := asc |} objs) y x.
Proof.
  unfold precedes.
  by rewrite sign_compareRows_desc, sign_compareRows_asc,
    (column_compare_antisym (GetV objs x k) (GetV objs y k)).
Qed.

Lemma StronglySorted_impl {A} (R R' : relation A) (l : list A) :
  (∀ x y, R x y → R' x y) → StronglySorted R l → StronglySorted R' l.
Proof.
  intros HR. induction 1 as [|x l Hl IH Hx]; constructor; [done|].
  eapply Forall_impl; [done|]. intros y. apply HR.
Qed.

Lemma StronglySorted_reverse {A} (R : relation A) (l : list A) :
  StronglySorted R l → StronglySorted (flip R) (reverse l).
Proof.
  induction 1 as [|x l Hl IH Hx]; [constructor|].
  rewrite reverse_cons. apply StronglySorted_app_2.
  - intros y z Hy ->%list_elem_of_singleton. unfold flip.
    rewrite Forall_forall in Hx. apply Hx. by rewrite elem_of_reverse in Hy.
  - done.
  - repeat constructor.
Qed.

Lemma fmap_NoDup_inj {A B} (f : A → B) (l : list A) (x y : A) :
  NoDup (f <$> l) → x ∈ l → y ∈ l → f x = f y → x = y.
Proof.
  induction l as [|z l IH]; intros Hnd Hx Hy Hf; [by inv Hx|].
  rewrite fmap_cons in Hnd. apply NoDup_cons in Hnd as [Hz Hnd].
  apply elem_of_cons in Hx as [->|Hx], Hy as [->|Hy]; [done| | |by apply IH].
  - exfalso. apply Hz. rewrite Hf. by apply list_elem_of_fmap_2.
  - exfalso. apply Hz. rewrite <-Hf. by apply list_elem_of_fmap_2.
Qed.

(** C4. When the values of the records under a column key are totally
    ordered (all strings, or all numbers other than NaN) and pairwise
    distinct, the rows sorted descending by that column are the rows sorted
    ascending by it, in reverse. *)
Theorem sort_desc_is_reverse_asc `{ArraySort} (objs : gmap loc object)
    (data : list loc) (k : string) :
  totally_ordered (column_values objs data k) →
  NoDup (column_values objs data k) →
  sortedData objs data (Some {| key := k; dir := desc |})
  = reverse (sortedData objs data (Some {| key := k; dir := asc |})).
Proof.
  intros Hord Hnd. simpl.
  set (up := compareRows {| key := k; dir := asc |} objs).
  set (down := compareRows {| key := k; dir := desc |} objs).
  assert (∀ r, r ∈ data → GetV objs r k ∈ column_values objs data k) as Hin.
  { intros r Hr. by apply (list_elem_of_fmap_2 (λ r, GetV objs r k)). }
  apply (StronglySorted_unique_strong (precedes down)).
  - intros x y Hx Hy Hxy Hyx.
    rewrite sort_by_perm in Hx.
    rewrite reverse_Permutation, sort_by_perm in Hy.
    apply (fmap_NoDup_inj (λ r, GetV objs r k) data); [done..|].
    apply (column_compare_eq _ _ _ Hord); [by apply Hin..|].
    unfold precedes, down in Hxy, Hyx.
    rewrite sign_compareRows_desc in Hxy, Hyx.
    rewrite (column_compare_antisym (GetV objs x k)) in Hyx.
    by destruct (column_compare (GetV objs x k) (GetV objs y k)).
  - apply sort_by_sorted. by apply compareRows_consistent.
  - apply (StronglySorted_impl (flip (precedes up))).
    { intros x y Hxy. by apply precedes_desc_asc. }
    apply StronglySorted_reverse, sort_by_sorted.
    by apply compareRows_consistent.
  - by rewrite reverse_Permutation, !sort_by_perm.
Qed.

(** The example of the specification: records with [n] 3, 1 and 2. *)
Lemma sort_desc_is_reverse_asc_witness :
  sortedData users [0; 1; 2] (Some {| key := "n"; dir := asc |}) = [1; 2; 0]
  ∧ sortedData users [0; 1; 2] (Some {| key := "n"; dir := desc |})
    = reverse (sortedData users [0; 1; 2] (Some {| key := "n"; dir := asc |})).
Proof.
  split; [vm_compute; reflexivity|].
  apply (sort_desc_is_reverse_asc users [0; 1; 2] "n").
  - right. apply (bool_decide_unpack _). vm_compute. exact I.
  - apply (bool_decide_unpack _). vm_compute. exact I.
Defined.

End DataTableFacts.

(* ===================================================================== *)
(** * The input field with isPassword and isClearable: properties *)
(* ===================================================================== *)

Module InputFieldFacts.
Import JS InputField.

(** ** Props of the stories *)

(** The ClearableInput story, with a change callback and the value abc. *)
Definition clearable_props : InputFieldProps :=
  {| value_prop := Some "abc"; onChange := true;
     label := Some "Search"; placeholder := Some "Type to search...";
     helperText := None; errorMessage := None;
     disabled := None; invalid := None;
     variant_prop := None; size_prop := None;
     isPassword_prop := None; isClearable_prop := Some true |}.

(** The PasswordWithToggle story. *)
Definition password_props : InputFieldProps :=
  {| value_prop := None; onChange := false;
     label := Some "Password"; placeholder := Some "Enter your password";
     helperText := Some "Password must be at least 8 characters long.";
     errorMessage := None;
     disabled := None; invalid := None;
     variant_prop := None; size_prop := None;
     isPassword_prop := Some true; isClearable_prop := None |}.

Lemma nonempty_true (s : string) : s ≠ "" → nonempty s = true.
Proof.
  intros Hs. unfold nonempty. destruct (String.eqb_spec s ""); done.
Qed.

(** ** Clearing *)

(** C9. On a clearable field whose current value is not empty the clear
    button is on screen; the clear action leaves the empty string as the
    displayed value and calls the change callback, when one was passed,
    once with the empty string (and calls nothing otherwise). Unless the
    field is disabled, pressing the button runs that action. *)
Theorem clear_empties_value (p : InputFieldProps) (st : State) :
  isClearable p = true →
  value st ≠ "" →
  is_Some (r_clear (render p st))
  ∧ r_value (render p (handleClear p st).1) = ""
  ∧ (handleClear p st).2 = (if onChange p then [OnChange ""] else [])
  ∧ showPassword (handleClear p st).1 = showPassword st
  ∧ (truthy (disabled p) = false →
       dispatch p st ClickClear = Some (handleClear p st)).
Proof.
  intros Hclear Hvalue.
  assert (r_clear (render p st)
          = Some {| btn_disabled := truthy (disabled p);
                    btn_label := "Clear input" |}) as Hbtn.
  { unfold render; simpl. by rewrite Hclear, nonempty_true. }
  split_and!; [by rewrite Hbtn|done..|].
  intros Hdis. unfold dispatch. by rewrite Hbtn; simpl; rewrite Hdis.
Qed.

Lemma clear_empties_value_witness :
  r_value (render clearable_props (initial_state clearable_props)) = "abc"
  ∧ is_Some (r_clear (render clearable_props (initial_state clearable_props)))
  ∧ r_value (render clearable_props
               (handleClear clearable_props
                  (initial_state clearable_props)).1) = ""
  ∧ (handleClear clearable_props (initial_state clearable_props)).2
    = [OnChange ""]
  ∧ showPassword (handleClear clearable_props
                    (initial_state clearable_props)).1 = false
  ∧ (truthy (disabled clearable_props) = false →
       dispatch clearable_props (initial_state clearable_props) ClickClear
       = Some (handleClear clearable_props (initial_state clearable_props))).
Proof.
  split; [reflexivity|].
  apply (clear_empties_value clearable_props (initial_state clearable_props)).
  - reflexivity.
  - simpl. discriminate.
Defined.

(** ** The visibility toggle *)

(** C10. With password mode on, the first render masks the value, one
    press of the toggle shows it as plain text and a second press masks it
    again. In any state the toggle is on screen, a press leaves the text
    value as it is, and it calls no change callback. *)
Theorem password_toggle_masks (p : InputFieldProps) :
  isPassword p = true →
  let st0 := initial_state p in
  let st1 := togglePassword st0 in
  let st2 := togglePassword st1 in
  r_type (render p st0) = password
  ∧ r_type (render p st1) = text
  ∧ r_type (render p st2) = password
  ∧ ∀ st : State,
      is_Some (r_toggle (render p st))
      ∧ value (togglePassword st) = value st
      ∧ r_value (render p (togglePassword st)) = r_value (render p st)
      ∧ (truthy (disabled p) = false →
           dispatch p st ClickToggle = Some (togglePassword st, [])).
Proof.
  intros Hpw st0 st1 st2.
  assert (∀ st, r_type (render p st)
                = if showPassword st then text else password) as Htype.
  { intros st. unfold render. cbn [r_type]. rewrite Hpw. by destruct showPassword. }
  assert (∀ st, r_toggle (render p st)
                = Some {| btn_disabled := truthy (disabled p);
                          btn_label := if showPassword st then "Hide password"
                                       else "Show password" |}) as Hbtn.
  { intros st. unfold render. cbn [r_toggle]. by rewrite Hpw. }
  rewrite !Htype. split_and!; [done..|].
  intros st. rewrite Hbtn. split_and!; [done..|].
  intros Hdis. unfold dispatch. by rewrite Hbtn; simpl; rewrite Hdis.
Qed.

Lemma password_toggle_masks_witness :
  let st0 := initial_state password_props in
  let st1 := togglePassword st0 in
  let st2 := togglePassword st1 in
  r_type (render password_props st0) = password
  ∧ r_type (render password_props st1) = text
  ∧ r_type (render password_props st2) = password
  ∧ ∀ st : State,
      is_Some (r_toggle (render password_props st))
      ∧ value (togglePassword st) = value st
      ∧ r_value (render password_props (togglePassword st))
        = r_value (render password_props st)
      ∧ (truthy (disabled password_props) = false →
           dispatch password_props st ClickToggle
           = Some (togglePassword st, [])).
Proof.
  apply (password_toggle_masks password_props). reflexivity.
Defined.

End InputFieldFacts.

(* ===================================================================== *)
(** * The input field whose toggle follows the label: properties *)
(* ===================================================================== *)

Module InputFieldLabelFacts.
Import JS InputFieldLabel.

(** ** Strings *)

Lemma prefix_app (p s : string) :
  String.prefix p s = true ↔ ∃ suf, s = p +:+ suf.
Proof.
  revert s. induction p as [|c p IH]; intros [|d s]; simpl.
  - split; [by exists ""|done].
  - split; [by exists (String d s)|done].
  - split; [done|by intros [? ?]].
  - destruct (Ascii.ascii_dec c d) as [->|Hne].
    + rewrite IH. split; intros [suf Hsuf]; exists suf; [by rewrite Hsuf|].
      by injection Hsuf.
    + split; [done|]. intros [suf [= ? ?]]. done.
Qed.

(** [includes] finds exactly the substrings. *)
Lemma String_includes_app (s search : string) :
  String_includes s search = true ↔ ∃ pre suf, s = pre +:+ search +:+ suf.
Proof.
  induction s as [|c s IH].
  - change (String_includes "" search)
      with (String.prefix search "" || false).
    rewrite orb_true_iff, prefix_app. split.
    + intros [[suf Hsuf]|?]; [|done]. by exists "", suf.
    + intros [pre [suf Hs]]. left. destruct pre; [by exists suf|done].
  - change (String_includes (String c s) search)
      with (String.prefix search (String c s) || String_includes s search).
    rewrite orb_true_iff, prefix_app, IH. split.
    + intros [[suf Hsuf]|[pre [suf Hs]]]; [by exists "", suf|].
      exists (String c pre), suf. by rewrite Hs.
    + intros [[|d pre] [suf Hs]]; [left; by exists suf|].
      right. injection Hs as -> ->. by exists pre, suf.
Qed.

Lemma String_toLowerCase_app (a b : string) :
  String_toLowerCase (a +:+ b) = String_toLowerCase a +:+ String_toLowerCase b.
Proof. induction a as [|c a IH]; simpl; [done|]. by rewrite IH. Qed.

(** A split of the lower-cased string is a split of the string. *)
Lemma String_toLowerCase_split (s a b : string) :
  String_toLowerCase s = a +:+ b →
  ∃ a' b', s = a' +:+ b'
           ∧ String_toLowerCase a' = a ∧ String_toLowerCase b' = b.
Proof.
  revert s. induction a as [|c a IH]; intros s Hs.
  - by exists "", s.
  - destruct s as [|d s]; [done|]. simpl in Hs. injection Hs as Hd Hs.
    destruct (IH s Hs) as (a' & b' & -> & Ha & Hb).
    exists (String d a'), b'. simpl. by rewrite Hd, Ha.
Qed.

(** ** The label and the toggle *)

(** The letters of the word, each with its capital. *)
Definition password_letters : list (ascii * ascii) :=
  [ ("p", "P"); ("a", "A"); ("s", "S"); ("s", "S");
    ("w", "W"); ("o", "O"); ("r", "R"); ("d", "D") ]%char.

(** [w] spells the word: eight characters, each the letter of its place
    in [password], small or capital. *)
Definition spells_password (w : string) : Prop :=
  Forall2 (λ letter c, c = letter.1 ∨ c = letter.2)
    password_letters (String.list_ascii_of_string w).

(** The label holds the word, in whatever mix of cases. *)
Definition mentions_password (l : string) : Prop :=
  ∃ pre w suf, l = pre +:+ w +:+ suf ∧ spells_password w.

(** [toLowerCase] sends to a letter of the word that letter and its
    capital, and no other character. *)
Lemma toLowerCase_unit_letter (letter : ascii * ascii) (c : ascii) :
  letter ∈ password_letters →
  toLowerCase_unit c = letter.1 ↔ c = letter.1 ∨ c = letter.2.
Proof.
  intros Hin.
  repeat (apply elem_of_cons in Hin as [->|Hin]);
    [..|by apply elem_of_nil in Hin];
    destruct c as [[] [] [] [] [] [] [] []]; vm_compute;
    (split;
     [intros Heq; first [discriminate Heq|by left|by right]
     |intros [Heq|Heq]; first [discriminate Heq|reflexivity]]).
Qed.

Lemma toLowerCase_spells (letters : list (ascii * ascii)) (w : string) :
  (∀ letter, letter ∈ letters → ∀ c,
     toLowerCase_unit c = letter.1 ↔ c = letter.1 ∨ c = letter.2) →
  String_toLowerCase w = String.string_of_list_ascii (letters.*1)
  ↔ Forall2 (λ letter c, c = letter.1 ∨ c = letter.2)
      letters (String.list_ascii_of_string w).
Proof.
  revert w. induction letters as [|letter letters IH]; intros w Hletters.
  - destruct w as [|c w]; simpl; (split; [intros Heq|intros HF]);
      first [done|constructor|by inversion HF].
  - destruct w as [|c w]; simpl.
    { split; [done|by inversion 1]. }
    rewrite Forall2_cons.
    rewrite <-(Hletters letter) by (by left).
    rewrite <-IH by (intros l Hl; apply Hletters; by right).
    split; [by intros [= -> ->]|by intros [-> ->]].
Qed.

Lemma toLowerCase_password (w : string) :
  String_toLowerCase w = "password" ↔ spells_password w.
Proof.
  apply (toLowerCase_spells password_letters).
  intros letter Hin c. by apply toLowerCase_unit_letter.
Qed.

Lemma label_mentions_password_spec (label : option string) :
  label_mentions_password label = true
  ↔ ∃ l, label = Some l ∧ mentions_password l.
Proof.
  destruct label as [l|]; simpl; [|split; [done|by intros (? & ? & ?)]].
  rewrite String_includes_app. split.
  - intros (a & b & Hl). exists l. split; [done|].
    apply String_toLowerCase_split in Hl as (pre & rest & -> & <- & Hrest).
    apply String_toLowerCase_split in Hrest as (w & suf & -> & Hw & <-).
    exists pre, w, suf. split; [done|]. by apply toLowerCase_password.
  - intros (? & [= <-] & pre & w & suf & -> & Hw).
    apply toLowerCase_password in Hw.
    exists (String_toLowerCase pre), (String_toLowerCase suf).
    by rewrite !String_toLowerCase_app, Hw.
Qed.

(** The word is found in capitals and in mixed case, and a label that
    holds another word is turned down. *)
Example mentions_password_cases :
  label_mentions_password (Some "PASSWORD") = true
  ∧ label_mentions_password (Some "New pAsSwOrD:") = true
  ∧ label_mentions_password (Some "Passw0rd") = false
  ∧ label_mentions_password (Some "pass word") = false
  ∧ label_mentions_password None = false.
Proof. by vm_compute. Qed.

(** The props of a password field and of a field with another label. *)
Definition props_with_label (l : option string) : InputFieldProps :=
  {| value := None; onChange := false; label := l;
     placeholder := None; helperText := None; errorMessage := None;
     disabled := None; invalid := None;
     variant_prop := None; size_prop := None |}.

Example toggle_for_password_label :
  r_toggle (render (props_with_label (Some "Confirm PassWord")) initial_state)
  = Some false.
Proof. vm_compute. reflexivity. Qed.

Example no_toggle_for_email_label :
  r_toggle (render (props_with_label (Some "Email Address")) initial_state)
  = None
  ∧ r_type (render (props_with_label (Some "Email Address")) initial_state)
    = InputField.password.
Proof. vm_compute. done. Qed.

(** C3. Whatever the props, the first render gives the input the type
    [password] (and a render gives it that type whenever the visibility
    flag is off); the visibility toggle is rendered exactly when a label is
    given and holds the word password in some mix of cases, so only then. *)
Theorem masked_by_default_toggle_by_label (p : InputFieldProps) (st : State) :
  r_type (render p initial_state) = InputField.password
  ∧ r_type (render p st)
    = (if isPasswordVisible st then InputField.text else InputField.password)
  ∧ (is_Some (r_toggle (render p st))
     ↔ ∃ l, label p = Some l ∧ mentions_password l).
Proof.
  split_and!; [done..|].
  rewrite <-label_mentions_password_spec. unfold render. cbn [r_toggle].
  destruct (label_mentions_password (label p)); split; done.
Qed.

End InputFieldLabelFacts.

(* ===================================================================== *)
(** * The data table over a series of events *)
(* ===================================================================== *)

Module DataTableRuns.
Import JS JSFacts DataTable DataTableFacts.

(** The events of a list, one after the other, with every call of the
    [onRowSelect] callback they cause, in order. [None] when one of them
    cannot happen. *)
Fixpoint run `{ArraySort} (c : Config) (es : list event)
    : option (Config * list call) :=
  match es with
  | [] => Some (c, [])
  | e :: es' =>
      match dispatch c e with
      | Some (c', calls) =>
          match run c' es' with
          | Some (c'', calls') => Some (c'', calls ++ calls')
          | None => None
          end
      | None => None
      end
  end.

(** No new render of the list passes [selectable]. *)
Definition never_selectable (es : list event) : Prop :=
  Forall (λ e, match e with
               | Rerender p _ => selectable p = false
               | _ => True
               end) es.

(** The values of the rows under [k] never go down along the list. *)
Definition ascending_by (objs : gmap loc object) (k : string)
    (rows : list loc) : Prop :=
  StronglySorted
    (λ a b, column_compare (GetV objs a k) (GetV objs b k) ≠ Gt) rows.

(** The values of the rows under [k] never go up along the list. *)
Definition descending_by (objs : gmap loc object) (k : string)
    (rows : list loc) : Prop :=
  StronglySorted
    (λ a b, column_compare (GetV objs a k) (GetV objs b k) ≠ Lt) rows.

(** A table that is not selectable, though a callback is passed. *)
Definition plain_props : DataTableProps :=
  {| data := [0; 1; 2];
     columns := columns sample_props;
     loading_prop := None;
     selectable_prop := None;
     onRowSelect := true |}.

(** ** Rows that cannot be selected *)

Lemma run_not_selectable `{ArraySort} (es : list event) :
  ∀ (c c' : Config) (calls : list call),
    selectable (props c) = false →
    never_selectable es →
    run c es = Some (c', calls) →
    selectedRows (state c') = selectedRows (state c) ∧ calls = [].
Proof.
  induction es as [|e es IH]; intros c c' calls Hsel Hes Hrun; simpl in Hrun.
  { by simplify_eq. }
  apply Forall_cons in Hes as [He Hes].
  destruct (dispatch c e) as [[c1 calls1]|] eqn:Hstep; [|done].
  destruct (run c1 es) as [[c2 calls2]|] eqn:Hrest; [|done]. simplify_eq.
  assert (selectable (props c1) = false
          ∧ selectedRows (state c1) = selectedRows (state c)
          ∧ calls1 = []) as (Hsel1 & Hrows1 & ->).
  { destruct e as [row|k|p objs]; simpl in Hstep.
    - destruct (view c) as [|cb head body]; [done|].
      destruct (bool_decide (row ∈ tr_row <$> body)); [|done].
      rewrite Hsel in Hstep. by simplify_eq.
    - destruct (view c) as [|cb head body]; [done|].
      destruct (bool_decide (k ∈ th_key <$> head)); by simplify_eq/=.
    - by simplify_eq/=. }
  destruct (IH c1 c' calls2 Hsel1 Hes Hrest) as [Hrows ->].
  split; [by rewrite Hrows|done].
Qed.

(** X1. While [selectable] is off, no click selects anything and the callback
    is never called: after any events from a mount, with new renders that
    keep [selectable] off, the selection is empty and no call was made. *)
Theorem unselectable_table_selects_nothing `{ArraySort} (p : DataTableProps)
    (objs : gmap loc object) (es : list event) (c' : Config)
    (calls : list call) :
  selectable p = false →
  never_selectable es →
  run (mount p objs) es = Some (c', calls) →
  selectedRows (state c') = [] ∧ calls = [].
Proof.
  intros Hsel Hes Hrun.
  by apply (run_not_selectable es (mount p objs) c' calls).
Qed.

Definition plain_after_clicks : Config :=
  {| props := plain_props; heap := users;
     state := {| selectedRows := [];
                 sortConfig := Some {| key := "name"; dir := asc |} |} |}.

Lemma unselectable_table_selects_nothing_witness :
  run (mount plain_props users) [RowClick 0; HeaderClick "name"; RowClick 2]
  = Some (plain_after_clicks, [])
  ∧ selectedRows (state plain_after_clicks) = []
  ∧ @nil call = [].
Proof.
  assert (run (mount plain_props users)
            [RowClick 0; HeaderClick "name"; RowClick 2]
          = Some (plain_after_clicks, [])) as Hrun.
  { vm_compute. reflexivity. }
  split; [exact Hrun|].
  apply (unselectable_table_selects_nothing plain_props users
           [RowClick 0; HeaderClick "name"; RowClick 2]).
  - reflexivity.
  - repeat constructor.
  - exact Hrun.
Defined.

(** ** What one row click changes *)

(** X2. A row click flips the membership of the clicked record and of no
    other record, and the callback, when one was passed, is called once
    with the new selection. *)
Theorem row_click_flips_one (p : DataTableProps) (st : State) (row : loc) :
  (row ∈ selectedRows (handleRowClick p st row).1 ↔ row ∉ selectedRows st)
  ∧ (∀ r, r ≠ row →
       (r ∈ selectedRows (handleRowClick p st row).1 ↔ r ∈ selectedRows st))
  ∧ (handleRowClick p st row).2
    = (if onRowSelect p
       then [OnRowSelect (selectedRows (handleRowClick p st row).1)]
       else [])
  ∧ sortConfig (handleRowClick p st row).1 = sortConfig st.
Proof.
  simpl. split_and!; [| |done..].
  - rewrite newSelectedRows_elem_of.
    destruct (decide (row ∈ selectedRows st)) as [Hrow|Hrow].
    + rewrite bool_decide_eq_true_2 by done.
      split; [by intros [Hne _]|done].
    + rewrite bool_decide_eq_false_2 by done.
      split; [done|intros _; by right].
  - intros r Hne. rewrite newSelectedRows_elem_of.
    destruct (bool_decide (row ∈ selectedRows st)); tauto.
Qed.

Definition after_two_clicks : Config :=
  {| props := sample_props; heap := users;
     state := {| selectedRows := [0; 2]; sortConfig := None |} |}.

Lemma selection_NoDup_witness :
  reachable after_two_clicks ∧ NoDup (selectedRows (state after_two_clicks)).
Proof.
  assert (reachable after_two_clicks) as Hreach.
  { eapply reachable_step with (c := after_click) (e := RowClick 2);
      [|exact I|vm_compute; reflexivity].
    eapply reachable_step with (c := mount sample_props users)
      (e := RowClick 0); [apply reachable_mount|exact I|].
    vm_compute. reflexivity. }
  split; [exact Hreach|].
  exact (selection_NoDup after_two_clicks Hreach).
Defined.

(** ** Header clicks *)

(** X4. Clicks on one header alternate: the second click gives the direction
    opposite to the first, and the third gives what the first gave. A
    click on another header starts ascending. *)
Theorem header_clicks_alternate (st : State) (k : string) :
  sortConfig (handleSort (handleSort st k) k)
  = Some {| key := k;
            dir := if bool_decide (sortConfig st = Some {| key := k; dir := asc |})
                   then asc else desc |}
  ∧ handleSort (handleSort (handleSort st k) k) k = handleSort st k
  ∧ ∀ k', k' ≠ k →
      sortConfig (handleSort (handleSort st k) k')
      = Some {| key := k'; dir := asc |}.
Proof.
  destruct st as [xs [[k0 []]|]]; unfold handleSort; simpl;
    (split_and!; [| |intros k' Hk']);
    repeat (case_bool_decide; simplify_eq/=); done.
Qed.

Lemma handleSort_key (st : State) (k : string) :
  ∃ d, sortConfig (handleSort st k) = Some {| key := k; dir := d |}.
Proof. unfold handleSort. simpl. by eexists. Qed.

Lemma view_table_inv `{ArraySort} (c : Config) cb head body :
  view c = Table cb head body →
  loading (props c) = false
  ∧ data (props c) ≠ []
  ∧ cb = selectable (props c)
  ∧ head = render_header (state c) <$> columns (props c)
  ∧ body = render_row (props c) (heap c) (state c) <$>
             sortedData (heap c) (data (props c)) (sortConfig (state c)).
Proof.
  unfold view, render. destruct (loading (props c)); [done|].
  case_bool_decide as Hlen; [done|]. intros [= <- <- <-].
  split_and!; [done| |done..]. intros Hnil. by rewrite Hnil in Hlen.
Qed.

(** X5. After a click on the header of column [k], the header cells of key
    [k], and only they, carry the arrow, and it shows the new direction;
    the selection is as it was and no callback is called. *)
Theorem header_click_moves_arrow `{ArraySort} (c c' : Config) (k : string)
    (calls : list call) :
  dispatch c (HeaderClick k) = Some (c', calls) →
  calls = []
  ∧ selectedRows (state c') = selectedRows (state c)
  ∧ ∃ d cb head body,
      sortConfig (state c') = Some {| key := k; dir := d |}
      ∧ view c' = Table cb head body
      ∧ ∀ h, h ∈ head →
          th_indicator h = (if bool_decide (th_key h = k) then Some d else None).
Proof.
  simpl. destruct (view c) as [|cb head body] eqn:Hview; [done|].
  destruct (bool_decide (k ∈ th_key <$> head)); [|done]. intros [= <- <-].
  apply view_table_inv in Hview as (Hload & Hdata & _ & _ & _).
  split_and!; [done..|].
  destruct (handleSort_key (state c) k) as [d Hsc].
  exists d. eexists _, _, _. split; [exact Hsc|]. split.
  - unfold view, render. simpl. rewrite Hload.
    rewrite bool_decide_eq_false_2; [done|].
    intros Hlen. by apply nil_length_inv in Hlen.
  - intros h (col & -> & _)%list_elem_of_fmap.
    unfold render_header. rewrite Hsc. simpl.
    destruct (decide (k = col_key col)) as [->|Hne].
    + by rewrite !bool_decide_eq_true_2.
    + rewrite bool_decide_eq_false_2 by done.
      by rewrite bool_decide_eq_false_2 by (by intros Heq; apply Hne).
Qed.

Definition sample_head (sc : option SortConfig) : list HeaderCell :=
  render_header {| selectedRows := []; sortConfig := sc |}
    <$> columns sample_props.

Definition after_header_click : Config :=
  {| props := sample_props; heap := users;
     state := {| selectedRows := [];
                 sortConfig := Some {| key := "name"; dir := asc |} |} |}.

Lemma header_click_moves_arrow_witness :
  dispatch (mount sample_props users) (HeaderClick "name")
  = Some (after_header_click, [])
  ∧ @nil call = []
  ∧ selectedRows (state after_header_click)
    = selectedRows (state (mount sample_props users))
  ∧ ∃ d cb head body,
      sortConfig (state after_header_click)
      = Some {| key := "name"; dir := d |}
      ∧ view after_header_click = Table cb head body
      ∧ ∀ h, h ∈ head →
          th_indicator h
          = (if bool_decide (th_key h = "name") then Some d else None).
Proof.
  assert (dispatch (mount sample_props users) (HeaderClick "name")
          = Some (after_header_click, [])) as Hstep.
  { vm_compute. reflexivity. }
  split; [exact Hstep|].
  exact (header_click_moves_arrow (mount sample_props users)
           after_header_click "name" [] Hstep).
Defined.

(** ** The comparator and the order of the rows *)

(** X6. Whatever the two field values, the comparator is antisymmetric in
    its arguments, and the descending one is the ascending one reversed. *)
Theorem compareRows_desc_reverses_asc (objs : gmap loc object) (k : string)
    (a b : loc) :
  sign (compareRows {| key := k; dir := desc |} objs a b)
  = CompOpp (sign (compareRows {| key := k; dir := asc |} objs a b))
  ∧ sign (compareRows {| key := k; dir := asc |} objs b a)
    = CompOpp (sign (compareRows {| key := k; dir := asc |} objs a b))
  ∧ sign (compareRows {| key := k; dir := desc |} objs a b)
    = sign (compareRows {| key := k; dir := asc |} objs b a).
Proof.
  rewrite sign_compareRows_desc, !sign_compareRows_asc.
  rewrite (column_compare_antisym (GetV objs a k) (GetV objs b k)).
  done.
Qed.

(** X7. A record without the sort key compares equal to every record, in
    both positions and both directions. *)
Theorem compareRows_missing_field (sc : SortConfig) (objs : gmap loc object)
    (a b : loc) (o : object) :
  objs !! a = Some o →
  o !! key sc = None →
  compareRows sc objs a b = Finite 0 ∧ compareRows sc objs b a = Finite 0.
Proof.
  intros Ha Hk.
  assert (GetV objs a (key sc) = VUndefined
          ∨ ∃ k, GetV objs a (key sc) = VBuiltin k) as Hv.
  { unfold GetV, Get. rewrite Ha. simpl. rewrite Hk.
    destruct (bool_decide (key sc ∈ Object_prototype_keys)); eauto. }
  unfold compareRows.
  destruct Hv as [-> | [k ->]]; simpl; by destruct (GetV objs b (key sc)).
Qed.

Lemma compareRows_missing_field_witness :
  compareRows {| key := "age"; dir := desc |} users 0 1 = Finite 0
  ∧ compareRows {| key := "age"; dir := desc |} users 1 0 = Finite 0.
Proof.
  apply (compareRows_missing_field {| key := "age"; dir := desc |}
           users 0 1 ann).
  - vm_compute. reflexivity.
  - vm_compute. reflexivity.
Defined.

(** X8. On a column whose values are all strings, or all numbers other
    than NaN, the rows sorted ascending come with values that never go down,
    and the rows sorted descending with values that never go up; equal
    values are allowed. *)
Theorem sort_puts_rows_in_order `{ArraySort} (objs : gmap loc object)
    (data : list loc) (k : string) :
  totally_ordered (column_values objs data k) →
  ascending_by objs k (sortedData objs data (Some {| key := k; dir := asc |}))
  ∧ descending_by objs k
      (sortedData objs data (Some {| key := k; dir := desc |})).
Proof.
  intros Hord. split; simpl.
  - eapply StronglySorted_impl;
      [|apply sort_by_sorted; by apply compareRows_consistent].
    intros x y. unfold precedes. by rewrite sign_compareRows_asc.
  - eapply StronglySorted_impl;
      [|apply sort_by_sorted; by apply compareRows_consistent].
    intros x y. unfold precedes. rewrite sign_compareRows_desc.
    by destruct (column_compare (GetV objs x k) (GetV objs y k)).
Qed.

Lemma sort_puts_rows_in_order_witness :
  sortedData users [2; 1; 0] (Some {| key := "name"; dir := asc |}) = [0; 1; 2]
  ∧ ascending_by users "name"
      (sortedData users [2; 1; 0] (Some {| key := "name"; dir := asc |}))
  ∧ descending_by users "name"
      (sortedData users [2; 1; 0] (Some {| key := "name"; dir := desc |})).
Proof.
  split; [vm_compute; reflexivity|].
  apply (sort_puts_rows_in_order users [2; 1; 0] "name").
  left. apply (bool_decide_unpack _). vm_compute. exact I.
Defined.

(** ** The first render *)

Definition sample_body : list TableRow :=
  render_row sample_props users initial_state <$> [0; 1; 2].

Lemma view_sample :
  view (mount sample_props users)
  = Table true (sample_head None) sample_body.
Proof. vm_compute. reflexivity. Qed.

(** X11. The first render of a table shows the rows in the order of the data,
    none highlighted, and no header with an arrow. *)
Theorem first_render_keeps_order `{ArraySort} (p : DataTableProps)
    (objs : gmap loc object) (cb : bool) (head : list HeaderCell)
    (body : list TableRow) :
  view (mount p objs) = Table cb head body →
  tr_row <$> body = data p
  ∧ Forall (λ tr, tr_highlighted tr = false) body
  ∧ Forall (λ h, th_indicator h = None) head.
Proof.
  intros (_ & _ & _ & -> & ->)%view_table_inv. simpl. split_and!.
  - rewrite <-list_fmap_compose.
    change (tr_row ∘ render_row p objs initial_state) with (@id loc).
    by rewrite list_fmap_id.
  - by apply Forall_fmap, Forall_true.
  - by apply Forall_fmap, Forall_true.
Qed.

Lemma first_render_keeps_order_witness :
  view (mount sample_props users) = Table true (sample_head None) sample_body
  ∧ tr_row <$> sample_body = data sample_props
  ∧ Forall (λ tr, tr_highlighted tr = false) sample_body
  ∧ Forall (λ h, th_indicator h = None) (sample_head None).
Proof.
  split; [exact view_sample|].
  exact (first_render_keeps_order sample_props users true (sample_head None)
           sample_body view_sample).
Defined.

End DataTableRuns.

(* ===================================================================== *)
(** * The input field with isPassword and isClearable, mounted *)
(* ===================================================================== *)

Module InputFieldRuns.
Import JS InputField InputFieldFacts.

(** A mounted field is its current props and its state. The user acts on
    what is on screen; the parent may render the field again with new
    props, and the state survives that. *)
Record Config : Type := {
  props : InputFieldProps;
  state : State
}.

Definition mount (p : InputFieldProps) : Config :=
  {| props := p; state := initial_state p |}.

Definition view (c : Config) : Rendered := render (props c) (state c).

Inductive action : Type :=
  | User (e : event)
  | Rerender (p : InputFieldProps).

Definition step (c : Config) (a : action) : option (Config * list call) :=
  match a with
  | User e =>
      match dispatch (props c) (state c) e with
      | Some (st, calls) => Some ({| props := props c; state := st |}, calls)
      | None => None
      end
  | Rerender p => Some ({| props := p; state := state c |}, [])
  end.

(** The actions of a list, one after the other, with the calls of the
    [onChange] callback they cause. *)
Fixpoint run (c : Config) (acts : list action)
    : option (Config * list call) :=
  match acts with
  | [] => Some (c, [])
  | a :: acts' =>
      match step c a with
      | Some (c', calls) =>
          match run c' acts' with
          | Some (c'', calls') => Some (c'', calls ++ calls')
          | None => None
          end
      | None => None
      end
  end.

(** Every new render of the list passes an [onChange] callback. *)
Definition always_notified (acts : list action) : Prop :=
  Forall (λ a, match a with
               | Rerender p => onChange p = true
               | User _ => True
               end) acts.

(** No new render of the list turns password mode on. *)
Definition never_password (acts : list action) : Prop :=
  Forall (λ a, match a with
               | Rerender p => isPassword p = false
               | User _ => True
               end) acts.

(** The value a parent holds when it keeps what the callback told it
    last, starting from [v]. *)
Definition last_told (v : string) (calls : list call) : string :=
  match last calls with
  | Some (OnChange v') => v'
  | None => v
  end.

(** ** The seed *)

(** X12. The [value] prop seeds the text once, at the mount: however often the
    parent renders the field again, and whatever [value] it passes then,
    the field shows the value it was mounted with (the empty string when
    none was given), and no callback is called. *)
Theorem value_prop_seeds_once (p : InputFieldProps)
    (ps : list InputFieldProps) :
  ∃ c', run (mount p) (Rerender <$> ps) = Some (c', [])
        ∧ props c' = default p (last ps)
        ∧ state c' = initial_state p
        ∧ r_value (view c') = default "" (value_prop p).
Proof.
  assert (∀ c, run c (Rerender <$> ps)
               = Some ({| props := default (props c) (last ps);
                          state := state c |}, [])) as Hrun.
  { induction ps as [|q ps IH]; intros c; simpl; [by destruct c|].
    rewrite IH. simpl. do 3 f_equal.
    rewrite last_cons. by destruct (last ps). }
  eexists. split; [apply Hrun|]. done.
Qed.

(** ** The callback and the buffer *)

Lemma step_value (c c' : Config) (a : action) (calls : list call) :
  step c a = Some (c', calls) →
  onChange (props c) = true →
  (calls = [] ∧ value (state c') = value (state c))
  ∨ calls = [OnChange (value (state c'))].
Proof.
  destruct a as [[v| |]|p]; simpl.
  - destruct (truthy (disabled (props c))); [done|].
    intros [= <- <-] ->. by right.
  - destruct (enabled _); [|done].
    intros [= <- <-] Hon. simpl. rewrite Hon. by right.
  - destruct (enabled _); [|done].
    intros [= <- <-] _. by left.
  - intros [= <- <-] _. by left.
Qed.

Lemma step_onChange (c c' : Config) (a : action) (calls : list call) :
  step c a = Some (c', calls) →
  onChange (props c') = match a with
                        | Rerender p => onChange p
                        | User _ => onChange (props c)
                        end.
Proof.
  destruct a as [e|p]; simpl; [|by intros [= <- <-]].
  destruct (dispatch (props c) (state c) e) as [[st calls']|]; [|done].
  by intros [= <- <-].
Qed.

(** X13. With a callback passed all along, a parent that keeps the value it
    was told last holds what the field shows: after any actions the shown
    value is the argument of the last call, or the value before them when
    there was no call. *)
Theorem callback_follows_buffer (acts : list action) :
  ∀ (c c' : Config) (calls : list call),
    onChange (props c) = true →
    always_notified acts →
    run c acts = Some (c', calls) →
    r_value (view c') = last_told (value (state c)) calls.
Proof.
  induction acts as [|a acts IH]; intros c c' calls Hon Hacts Hrun;
    simpl in Hrun.
  { by simplify_eq. }
  apply Forall_cons in Hacts as [Ha Hacts].
  destruct (step c a) as [[c1 calls1]|] eqn:Hstep; [|done].
  destruct (run c1 acts) as [[c2 calls2]|] eqn:Hrest; [|done]. simplify_eq.
  assert (onChange (props c1) = true) as Hon1.
  { rewrite (step_onChange c c1 a calls1 Hstep). by destruct a. }
  rewrite (IH c1 c' calls2 Hon1 Hacts Hrest).
  unfold last_told. rewrite last_app.
  destruct (last calls2) as [[v]|]; [done|].
  destruct (step_value c c1 a calls1 Hstep Hon) as [[-> Hv] | ->]; [|done].
  by rewrite Hv.
Qed.

Lemma callback_follows_buffer_witness :
  run (mount clearable_props)
      [User (Input "abcd"); User ClickClear; User (Input "x")]
    = Some ({| props := clearable_props;
               state := {| value := "x"; showPassword := false |} |},
            [OnChange "abcd"; OnChange ""; OnChange "x"])
  ∧ r_value (view {| props := clearable_props;
                     state := {| value := "x"; showPassword := false |} |})
    = last_told (value (state (mount clearable_props)))
        [OnChange "abcd"; OnChange ""; OnChange "x"].
Proof.
  assert (run (mount clearable_props)
            [User (Input "abcd"); User ClickClear; User (Input "x")]
          = Some ({| props := clearable_props;
                     state := {| value := "x"; showPassword := false |} |},
                  [OnChange "abcd"; OnChange ""; OnChange "x"])) as Hrun.
  { vm_compute. reflexivity. }
  split; [exact Hrun|].
  apply (callback_follows_buffer
           [User (Input "abcd"); User ClickClear; User (Input "x")]
           (mount clearable_props)).
  - reflexivity.
  - repeat constructor.
  - exact Hrun.
Defined.

(** ** A disabled field *)

(** X14. On a disabled field nothing can be done: no typing, no clearing, no
    toggling. *)
Theorem disabled_field_is_inert (p : InputFieldProps) (st : State)
    (e : event) :
  truthy (disabled p) = true →
  dispatch p st e = None.
Proof.
  intros Hdis. destruct e as [v| |]; unfold dispatch, render; simpl;
    rewrite Hdis; simpl.
  - done.
  - by destruct (isClearable p && nonempty (value st)).
  - by destruct (isPassword p).
Qed.

(** The Disabled story, made clearable and a password field. *)
Definition disabled_props : InputFieldProps :=
  {| value_prop := Some "abc"; onChange := true;
     label := Some "Email Address"; placeholder := Some "Enter your email";
     helperText := Some "We will never share your email.";
     errorMessage := None;
     disabled := Some true; invalid := None;
     variant_prop := None; size_prop := None;
     isPassword_prop := Some true; isClearable_prop := Some true |}.

Lemma disabled_field_is_inert_witness :
  dispatch disabled_props (initial_state disabled_props) ClickClear = None.
Proof.
  apply (disabled_field_is_inert disabled_props
           (initial_state disabled_props) ClickClear).
  reflexivity.
Defined.

(** ** The clear button *)

(** X15. The clear button is on screen exactly when the field is clearable and
    shows a non-empty value. Clearing takes it away, so that a second
    clear cannot follow, and typing a non-empty text into a clearable
    field brings it back. *)
Theorem clear_button_follows_value (p : InputFieldProps) (st : State) :
  (is_Some (r_clear (render p st)) ↔ isClearable p = true ∧ value st ≠ "")
  ∧ r_clear (render p (handleClear p st).1) = None
  ∧ dispatch p (handleClear p st).1 ClickClear = None
  ∧ ∀ v, (is_Some (r_clear (render p (handleInputChange p st v).1))
          ↔ isClearable p = true ∧ v ≠ "").
Proof.
  assert (∀ s, is_Some (r_clear (render p s))
               ↔ isClearable p = true ∧ value s ≠ "") as Hbtn.
  { intros s. unfold render. cbn [r_clear].
    transitivity (isClearable p && nonempty (value s) = true).
    - destruct (isClearable p && nonempty (value s)); split; try done;
        by intros [? [=]].
    - rewrite andb_true_iff. unfold nonempty.
      by destruct (String.eqb_spec (value s) "") as [->|Hne]; simpl;
        split; intros [? ?]. }
  assert (r_clear (render p (handleClear p st).1) = None) as Hnone.
  { unfold render; simpl. by rewrite andb_false_r. }
  split_and!; [apply Hbtn|exact Hnone| |intros v; apply Hbtn].
  unfold dispatch. by rewrite Hnone.
Qed.

(** ** Helper and error text *)

(** The error message to show, if any: the field is invalid and the
    message is not empty. *)
Definition shown_error (invalid : option bool) (errorMessage : option string)
    : option string :=
  if truthy invalid && truthy_string errorMessage then errorMessage else None.

Lemma shown_error_spec (i : option bool) (m : option string) :
  (∃ e, shown_error i m = Some e ∧ i = Some true ∧ m = Some e ∧ e ≠ "")
  ∨ (shown_error i m = None
     ∧ ¬ (i = Some true ∧ ∃ e, m = Some e ∧ e ≠ "")).
Proof.
  unfold shown_error, truthy, truthy_string, nonempty.
  destruct i as [[|]|]; simpl; try (right; split; [done|by intros [? _]]).
  destruct m as [e|]; simpl; [|right; split; [done|by intros (_ & ? & ? & _)]].
  destruct (String.eqb_spec e "") as [->|Hne]; simpl.
  - right. split; [done|]. by intros (_ & ? & [= <-] & ?).
  - left. by exists e.
Qed.

Lemma render_message (p : InputFieldProps) (st : State) :
  r_message (render p st)
  = match shown_error (invalid p) (errorMessage p) with
    | Some e => Some (ErrorText e)
    | None =>
        match helperText p with
        | Some h => if nonempty h then Some (HelperText h) else None
        | None => None
        end
    end.
Proof.
  unfold render. cbn [r_message]. unfold shown_error.
  destruct (truthy (invalid p) && truthy_string (errorMessage p)) eqn:Herr.
  - apply andb_true_iff in Herr as [_ Hm].
    by destruct (errorMessage p).
  - by destruct (helperText p).
Qed.

(** X16. The error message is shown exactly when the field is invalid and
    the message is not empty; otherwise the helper text is shown when it
    is not empty, and nothing else. *)
Theorem error_text_before_helper_text (p : InputFieldProps) (st : State) :
  (∀ e, r_message (render p st) = Some (ErrorText e)
        ↔ invalid p = Some true ∧ errorMessage p = Some e ∧ e ≠ "")
  ∧ (∀ h, r_message (render p st) = Some (HelperText h)
          ↔ helperText p = Some h ∧ h ≠ ""
            ∧ ¬ (invalid p = Some true
                 ∧ ∃ e, errorMessage p = Some e ∧ e ≠ "")).
Proof.
  rewrite (render_message p st).
  destruct (shown_error_spec (invalid p) (errorMessage p))
    as [(e0 & -> & Hi & He & Hne)|[-> Hno]].
  - split.
    + intros e. split; [by intros [= <-]|]. intros (_ & He' & _). congruence.
    + intros h. split; [done|]. intros (_ & _ & Hn). exfalso. apply Hn. eauto.
  - split.
    + intros e. split.
      * destruct (helperText p) as [h0|]; simpl; [|done].
        by destruct (nonempty h0).
      * intros (Hi & He & Hne). exfalso. apply Hno. eauto.
    + intros h. destruct (helperText p) as [h0|]; simpl.
      * unfold nonempty. destruct (String.eqb_spec h0 "") as [->|Hh]; simpl.
        -- split; [done|]. by intros ([= <-] & ? & _).
        -- split; [by intros [= <-]|]. by intros ([= <-] & _).
      * split; [done|]. by intros (? & _).
Qed.

(** ** The visibility toggle *)

(** X17. On a password field the label of the toggle names what a press will
    do: it offers to show the password exactly when the input is masked,
    and to hide it exactly when the input is plain text. *)
Theorem toggle_label_names_action (p : InputFieldProps) (st : State) :
  isPassword p = true →
  ∃ b, r_toggle (render p st) = Some b
       ∧ (btn_label b = "Show password" ↔ r_type (render p st) = password)
       ∧ (btn_label b = "Hide password" ↔ r_type (render p st) = text).
Proof.
  intros Hpw. unfold render. cbn [r_toggle r_type]. rewrite Hpw.
  eexists. split; [done|]. simpl. by destruct (showPassword st).
Qed.

Lemma toggle_label_names_action_witness :
  ∃ b, r_toggle (render password_props (initial_state password_props))
       = Some b
       ∧ (btn_label b = "Show password"
          ↔ r_type (render password_props (initial_state password_props))
            = password)
       ∧ (btn_label b = "Hide password"
          ↔ r_type (render password_props (initial_state password_props))
            = text).
Proof.
  apply (toggle_label_names_action password_props
           (initial_state password_props)).
  reflexivity.
Defined.

Lemma run_plain (acts : list action) :
  ∀ (c c' : Config) (calls : list call),
    isPassword (props c) = false →
    never_password acts →
    run c acts = Some (c', calls) →
    isPassword (props c') = false
    ∧ showPassword (state c') = showPassword (state c).
Proof.
  induction acts as [|a acts IH]; intros c c' calls Hpw Hacts Hrun;
    simpl in Hrun.
  { by simplify_eq. }
  apply Forall_cons in Hacts as [Ha Hacts].
  destruct (step c a) as [[c1 calls1]|] eqn:Hstep; [|done].
  destruct (run c1 acts) as [[c2 calls2]|] eqn:Hrest; [|done]. simplify_eq.
  assert (isPassword (props c1) = false
          ∧ showPassword (state c1) = showPassword (state c)) as [Hpw1 Hsh1].
  { destruct a as [[v| |]|p]; simpl in Hstep.
    - destruct (truthy (disabled (props c))); by simplify_eq/=.
    - destruct (enabled _); by simplify_eq/=.
    - by rewrite Hpw in Hstep.
    - by simplify_eq/=. }
  destruct (IH c1 c' calls2 Hpw1 Hacts Hrest) as [Hpw' Hsh'].
  split; [done|]. by rewrite Hsh'.
Qed.

(** X18. A field that is not a password field never masks: after any actions
    from a mount, with new renders that keep password mode off, the input
    has the type text, no toggle is on screen, and the visibility flag is
    still off. *)
Theorem plain_field_never_masks (p : InputFieldProps) (acts : list action)
    (c' : Config) (calls : list call) :
  isPassword p = false →
  never_password acts →
  run (mount p) acts = Some (c', calls) →
  r_type (view c') = text
  ∧ r_toggle (view c') = None
  ∧ showPassword (state c') = false.
Proof.
  intros Hpw Hacts Hrun.
  destruct (run_plain acts (mount p) c' calls Hpw Hacts Hrun) as [Hpw' Hsh].
  unfold view, render. cbn [r_type r_toggle]. by rewrite Hpw'.
Qed.

Definition typed_then_cleared : Config :=
  {| props := clearable_props;
     state := {| value := ""; showPassword := false |} |}.

Lemma plain_field_never_masks_witness :
  run (mount clearable_props) [User (Input "secret"); User ClickClear]
  = Some (typed_then_cleared, [OnChange "secret"; OnChange ""])
  ∧ r_type (view typed_then_cleared) = text
  ∧ r_toggle (view typed_then_cleared) = None
  ∧ showPassword (state typed_then_cleared) = false.
Proof.
  assert (run (mount clearable_props)
            [User (Input "secret"); User ClickClear]
          = Some (typed_then_cleared, [OnChange "secret"; OnChange ""]))
    as Hrun.
  { vm_compute. reflexivity. }
  split; [exact Hrun|].
  apply (plain_field_never_masks clearable_props
           [User (Input "secret"); User ClickClear] typed_then_cleared
           [OnChange "secret"; OnChange ""]).
  - reflexivity.
  - repeat constructor.
  - exact Hrun.
Defined.

End InputFieldRuns.

(* ===================================================================== *)
(** * The input field whose toggle follows the label, in use *)
(* ===================================================================== *)

Module InputFieldLabelRuns.
Import JS InputFieldLabel InputFieldLabelFacts.

(** The user types into the input or presses the toggle. The input hands
    its change events to the [onChange] of the props as they are; the
    component keeps no text of its own. A disabled control fires nothing,
    and a toggle that is not rendered cannot be pressed. *)
Inductive event : Type :=
  | Input (target_value : string)
  | ClickToggle.

Definition dispatch (p : InputFieldProps) (st : State) (e : event)
    : option (State * list InputField.call) :=
  match e with
  | Input v =>
      if r_disabled (render p st) then None
      else Some (st, if onChange p then [InputField.OnChange v] else [])
  | ClickToggle =>
      match r_toggle (render p st) with
      | Some false => Some (togglePassword st, [])
      | _ => None
      end
  end.

Fixpoint run (p : InputFieldProps) (st : State) (es : list event)
    : option (State * list InputField.call) :=
  match es with
  | [] => Some (st, [])
  | e :: es' =>
      match dispatch p st e with
      | Some (st', calls) =>
          match run p st' es' with
          | Some (st'', calls') => Some (st'', calls ++ calls')
          | None => None
          end
      | None => None
      end
  end.

(** ** A field that is not about a password *)

Lemma run_unlabelled (p : InputFieldProps) (es : list event) :
  ∀ (st st' : State) (calls : list InputField.call),
    label_mentions_password (label p) = false →
    run p st es = Some (st', calls) →
    st' = st.
Proof.
  induction es as [|e es IH]; intros st st' calls Hlabel Hrun; simpl in Hrun.
  { by simplify_eq. }
  destruct (dispatch p st e) as [[st1 calls1]|] eqn:Hstep; [|done].
  destruct (run p st1 es) as [[st2 calls2]|] eqn:Hrest; [|done]. simplify_eq.
  assert (st1 = st) as ->.
  { destruct e as [v|]; unfold dispatch, render in Hstep; simpl in Hstep.
    - destruct (InputField.truthy (disabled p)); by simplify_eq.
    - by rewrite Hlabel in Hstep. }
  by apply (IH st st' calls2).
Qed.

(** X19. A field whose label does not hold the word password (or that has no
    label) is masked for good: whatever the user does after the mount,
    the input keeps the type password, and no toggle is there to change
    it. *)
Theorem unlabelled_field_stays_masked (p : InputFieldProps)
    (es : list event) (st' : State) (calls : list InputField.call) :
  label_mentions_password (label p) = false →
  run p initial_state es = Some (st', calls) →
  r_type (render p st') = InputField.password
  ∧ r_toggle (render p st') = None.
Proof.
  intros Hlabel Hrun.
  rewrite (run_unlabelled p es initial_state st' calls Hlabel Hrun).
  unfold render. cbn [r_type r_toggle]. by rewrite Hlabel.
Qed.

(** The field of the Default story, with a change callback. *)
Definition email_props : InputFieldProps :=
  {| value := None; onChange := true;
     label := Some "Email Address";
     placeholder := Some "Enter your email";
     helperText := Some "We will never share your email.";
     errorMessage := None;
     disabled := None; invalid := None;
     variant_prop := None; size_prop := None |}.

Lemma unlabelled_field_stays_masked_witness :
  run email_props initial_state [Input "a"; Input "ab"]
  = Some (initial_state, [InputField.OnChange "a"; InputField.OnChange "ab"])
  ∧ r_type (render email_props initial_state) = InputField.password
  ∧ r_toggle (render email_props initial_state) = None.
Proof.
  assert (run email_props initial_state [Input "a"; Input "ab"]
          = Some (initial_state,
                  [InputField.OnChange "a"; InputField.OnChange "ab"]))
    as Hrun.
  { vm_compute. reflexivity. }
  split; [exact Hrun|].
  apply (unlabelled_field_stays_masked email_props [Input "a"; Input "ab"]
           initial_state
           [InputField.OnChange "a"; InputField.OnChange "ab"]).
  - vm_compute. reflexivity.
  - exact Hrun.
Defined.

(** ** The toggle *)

(** X21. On an enabled field whose label mentions a password, a press of the
    toggle can always happen; it switches the input between the types
    password and text, calls no callback, and two presses give back the
    state. *)
Theorem label_toggle_flips_type (p : InputFieldProps) (st : State) :
  label_mentions_password (label p) = true →
  InputField.truthy (disabled p) = false →
  dispatch p st ClickToggle = Some (togglePassword st, [])
  ∧ (r_type (render p (togglePassword st)) = InputField.text
     ↔ r_type (render p st) = InputField.password)
  ∧ (r_type (render p (togglePassword st)) = InputField.password
     ↔ r_type (render p st) = InputField.text)
  ∧ togglePassword (togglePassword st) = st
  ∧ r_value (render p (togglePassword st)) = r_value (render p st).
Proof.
  intros Hlabel Hdis. unfold dispatch, render. simpl.
  rewrite Hlabel, Hdis. destruct st as [[|]]; simpl; by split_and!.
Qed.

Definition confirm_props : InputFieldProps :=
  props_with_label (Some "Confirm PassWord").

Lemma label_toggle_flips_type_witness :
  dispatch confirm_props initial_state ClickToggle
  = Some (togglePassword initial_state, [])
  ∧ (r_type (render confirm_props (togglePassword initial_state))
     = InputField.text
     ↔ r_type (render confirm_props initial_state) = InputField.password)
  ∧ (r_type (render confirm_props (togglePassword initial_state))
     = InputField.password
     ↔ r_type (render confirm_props initial_state) = InputField.text)
  ∧ togglePassword (togglePassword initial_state) = initial_state
  ∧ r_value (render confirm_props (togglePassword initial_state))
    = r_value (render confirm_props initial_state).
Proof.
  apply (label_toggle_flips_type confirm_props initial_state).
  - vm_compute. reflexivity.
  - reflexivity.
Defined.

(** X22. A disabled field fires nothing: no change reaches the callback and
    the toggle cannot be pressed. *)
Theorem disabled_label_field_is_inert (p : InputFieldProps) (st : State)
    (e : event) :
  InputField.truthy (disabled p) = true →
  dispatch p st e = None.
Proof.
  intros Hdis. destruct e as [v|]; unfold dispatch, render; simpl;
    rewrite Hdis; [done|].
  by destruct (label_mentions_password (label p)).
Qed.

Definition disabled_password_props : InputFieldProps :=
  {| value := Some "abc"; onChange := true;
     label := Some "Password";
     placeholder := None; helperText := None; errorMessage := None;
     disabled := Some true; invalid := None;
     variant_prop := None; size_prop := None |}.

Lemma disabled_label_field_is_inert_witness :
  dispatch disabled_password_props initial_state ClickToggle = None.
Proof.
  apply (disabled_label_field_is_inert disabled_password_props
           initial_state ClickToggle).
  reflexivity.
Defined.

(** ** Helper and error text *)

(** X23. As in the other field: the error message is shown exactly when the
    field is invalid and the message is not empty; otherwise the helper
    text is shown when it is not empty. *)
Theorem label_field_error_before_helper (p : InputFieldProps) (st : State) :
  (∀ e, r_message (render p st) = Some (InputField.ErrorText e)
        ↔ invalid p = Some true ∧ errorMessage p = Some e ∧ e ≠ "")
  ∧ (∀ h, r_message (render p st) = Some (InputField.HelperText h)
          ↔ helperText p = Some h ∧ h ≠ ""
            ∧ ¬ (invalid p = Some true
                 ∧ ∃ e, errorMessage p = Some e ∧ e ≠ "")).
Proof.
  assert (r_message (render p st)
          = match InputFieldRuns.shown_error (invalid p) (errorMessage p) with
            | Some e => Some (InputField.ErrorText e)
            | None =>
                match helperText p with
                | Some h => if InputField.nonempty h
                            then Some (InputField.HelperText h) else None
                | None => None
                end
            end) as ->.
  { unfold render. cbn [r_message]. unfold InputFieldRuns.shown_error.
    destruct (InputField.truthy (invalid p)
              && InputField.truthy_string (errorMessage p)) eqn:Herr.
    - apply andb_true_iff in Herr as [_ Hm]. by destruct (errorMessage p).
    - by destruct (helperText p). }
  destruct (InputFieldRuns.shown_error_spec (invalid p) (errorMessage p))
    as [(e0 & -> & Hi & He & Hne)|[-> Hno]].
  - split.
    + intros e. split; [by intros [= <-]|]. intros (_ & He' & _). congruence.
    + intros h. split; [done|]. intros (_ & _ & Hn). exfalso. apply Hn. eauto.
  - split.
    + intros e. split.
      * destruct (helperText p) as [h0|]; simpl; [|done].
        by destruct (InputField.nonempty h0).
      * intros (Hi & He & Hne). exfalso. apply Hno. eauto.
    + intros h. destruct (helperText p) as [h0|]; simpl.
      * unfold InputField.nonempty.
        destruct (String.eqb_spec h0 "") as [->|Hh]; simpl.
        -- split; [done|]. by intros ([= <-] & ? & _).
        -- split; [by intros [= <-]|]. by intros ([= <-] & _).
      * split; [done|]. by intros (? & _).
Qed.

End InputFieldLabelRuns.
